(** * bmadhusu/tools: the gather / build-index / build-colophon pipeline

    A shallow embedding of [gather_links.py], [build_index.py] and
    [build_colophon.py].  Python strings are sequences of Unicode code
    points, modelled as [list N]; dictionaries with a fixed set of keys are
    records; the working directory is a finite map from file names to file
    contents; [print] appends a line to the standard output carried in the
    state. *)

From Stdlib Require Import NArith List Ascii String DecimalString Sorted Lia.
From stdpp Require Import base option list sorting gmap.

Local Open Scope N_scope.

(** ** Python strings *)

Abbreviation str := (list N).

(** An ASCII literal of the source, as code points. *)
Definition py (s : string) : str :=
  map N_of_ascii (list_ascii_of_string s).

(** Code points that are spelled out where a literal would need escaping. *)
Definition NUL : N := 0.
Definition LF : N := 10.
Definition DQUOTE : N := 34.
Definition SQUOTE : N := 39.

Definition mem (c : N) (cs : str) : bool := existsb (N.eqb c) cs.

(** [str.isspace] on one code point, which is also the class [\s] of [re]
    on [str] patterns. *)
Definition is_space (c : N) : bool :=
  ((9 <=? c) && (c <=? 13)) || ((28 <=? c) && (c <=? 32)) ||
  mem c [133; 160; 5760; 8232; 8233; 8239; 8287; 12288] ||
  ((8192 <=? c) && (c <=? 8202)).

Fixpoint lstrip_by (p : N → bool) (s : str) : str :=
  match s with
  | [] => []
  | c :: s' => if p c then lstrip_by p s' else s
  end.

Definition rstrip_by (p : N → bool) (s : str) : str :=
  foldr (λ c acc, match acc with
                  | [] => if p c then [] else [c]
                  | _ :: _ => c :: acc
                  end) [] s.

(** [s.strip()] *)
Definition strip (s : str) : str := rstrip_by is_space (lstrip_by is_space s).

(** [s.rstrip(chars)] *)
Definition rstrip (chars : str) (s : str) : str := rstrip_by (λ c, mem c chars) s.

Definition cons_head (c : N) (l : list str) : list str :=
  match l with
  | h :: t => (c :: h) :: t
  | [] => [[c]]
  end.

(** [s.split(sep)] for a one-character separator. *)
Fixpoint split (sep : N) (s : str) : list str :=
  match s with
  | [] => [[]]
  | c :: s' => if c =? sep then [] :: split sep s' else cons_head c (split sep s')
  end.

(** [s.split(sep, maxsplit)] for a one-character separator. *)
Fixpoint split_max (sep : N) (s : str) (maxsplit : nat) {struct s} : list str :=
  match s with
  | [] => [[]]
  | c :: s' =>
      match maxsplit with
      | O => [c :: s']
      | S k => if c =? sep then [] :: split_max sep s' k
               else cons_head c (split_max sep s' (S k))
      end
  end.

(** [s.replace(old, new)] for a one-character [old]. *)
Definition replace (old : N) (new : str) (s : str) : str :=
  flat_map (λ c, if c =? old then new else [c]) s.

Definition starts_with (pre s : str) : Prop := ∃ t, s = pre ++ t.

(** ** The fragment of [re] the scripts use

    Every pattern of the three scripts is a sequence of one-character tests,
    each taken once, optionally ([?]) or greedily repeated ([*], [+]), with
    at most one capture group.  Matching backtracks as [re] does: a greedy
    item first takes as many characters as it can and gives them back one at
    a time while the rest of the pattern fails. *)

Inductive item :=
  | One (p : N → bool)
  | Opt (p : N → bool)
  | Many (least : nat) (p : N → bool).

Definition pieces : Type := list str * str.

Fixpoint many (p : N → bool) (least : nat) (k : str → option pieces) (s : str)
  : option (str * pieces) :=
  let stop := match least with
              | O => match k s with Some r => Some ([], r) | None => None end
              | S _ => None
              end in
  match s with
  | c :: s' =>
      if p c then
        match many p (pred least) k s' with
        | Some (m, r) => Some (c :: m, r)
        | None => stop
        end
      else stop
  | [] => stop
  end.

Definition push (m : str) (r : option pieces) : option pieces :=
  match r with
  | Some (ps, t) => Some (m :: ps, t)
  | None => None
  end.

(** The matched text of every item, in order, and the unread rest. *)
Fixpoint match_items (its : list item) (s : str) : option pieces :=
  match its with
  | [] => Some ([], s)
  | One p :: its' =>
      match s with
      | c :: s' => if p c then push [c] (match_items its' s') else None
      | [] => None
      end
  | Opt p :: its' =>
      let skip := push [] (match_items its' s) in
      match s with
      | c :: s' =>
          if p c then
            match match_items its' s' with
            | Some (ps, t) => Some ([c] :: ps, t)
            | None => skip
            end
          else skip
      | [] => skip
      end
  | Many least p :: its' =>
      match many p least (match_items its') s with
      | Some (m, (ps, t)) => Some (m :: ps, t)
      | None => None
      end
  end.

(** A pattern [before(group)after]; a pattern without a group has its
    items in [before]. *)
Record pattern := Pattern {
  before : list item;
  group : list item;
  after : list item
}.

Record rmatch := Match {
  m_whole : str;   (* group(0) *)
  m_group : str;   (* group(1) *)
  m_rest : str     (* the text after the match *)
}.

Definition match_at (pat : pattern) (s : str) : option rmatch :=
  match match_items (before pat ++ group pat ++ after pat) s with
  | Some (ps, t) =>
      Some (Match (concat ps)
                  (concat (take (length (group pat)) (drop (length (before pat)) ps)))
                  t)
  | None => None
  end.

(** [re.search]: the leftmost match. *)
Fixpoint re_search (pat : pattern) (s : str) : option rmatch :=
  match match_at pat s with
  | Some m => Some m
  | None => match s with
            | [] => None
            | _ :: s' => re_search pat s'
            end
  end.

(** [re.findall] for a pattern without group: the non-overlapping matches
    from left to right.  [skip] counts the characters of the last match that
    are still to be passed over. *)
Fixpoint findall_from (pat : pattern) (skip : nat) (s : str) : list str :=
  match skip with
  | S k => match s with
           | [] => []
           | _ :: s' => findall_from pat k s'
           end
  | O =>
      match match_at pat s with
      | Some m =>
          m_whole m ::
          match s with
          | [] => []
          | _ :: s' => findall_from pat (pred (length (m_whole m))) s'
          end
      | None => match s with
                | [] => []
                | _ :: s' => findall_from pat O s'
                end
      end
  end.

Definition re_findall (pat : pattern) (s : str) : list str := findall_from pat O s.

(** A replacement template: literal text and back-references [\1]. *)
Inductive tpart := Txt (t : str) | Ref1.

Definition expand (tpl : list tpart) (g : str) : str :=
  flat_map (λ part, match part with Txt t => t | Ref1 => g end) tpl.

(** [re.sub]: every non-overlapping match replaced, the text between the
    matches copied. *)
Fixpoint sub_from (pat : pattern) (tpl : list tpart) (skip : nat) (s : str) : str :=
  match skip with
  | S k => match s with
           | [] => []
           | _ :: s' => sub_from pat tpl k s'
           end
  | O =>
      match match_at pat s with
      | Some m =>
          expand tpl (m_group m) ++
          match s with
          | [] => []
          | c :: s' =>
              match length (m_whole m) with
              | O => c :: sub_from pat tpl O s'
              | S k => sub_from pat tpl k s'
              end
          end
      | None => match s with
                | [] => []
                | c :: s' => c :: sub_from pat tpl O s'
                end
      end
  end.

Definition re_sub (pat : pattern) (tpl : list tpart) (s : str) : str :=
  sub_from pat tpl O s.

Definition lit (c : N) : item := One (N.eqb c).
Definition lits (s : str) : list item := map lit s.

(** Comparison of [str] values: lexicographic on code points. *)
Fixpoint str_ltb (a b : str) : bool :=
  match a, b with
  | _, [] => false
  | [], _ :: _ => true
  | x :: a', y :: b' => (x <? y) || ((x =? y) && str_ltb a' b')
  end.

(** A stable sort, as [sorted] and [list.sort] are: [before y x] says that
    [y] must come strictly before [x]; elements that are not ordered by
    [before] keep the order they had. *)
Fixpoint insert_by {A} (before : A → A → bool) (x : A) (l : list A) : list A :=
  match l with
  | [] => [x]
  | y :: l' => if before y x then y :: insert_by before x l' else x :: y :: l'
  end.

Definition stable_sort {A} (before : A → A → bool) (l : list A) : list A :=
  foldr (insert_by before) [] l.

(** [str(n)] for a natural number. *)
Definition py_nat (n : nat) : str := py (NilEmpty.string_of_uint (Nat.to_uint n)).

(** The last path component and [Path(p).stem]: the name without its last
    suffix, a leading or trailing dot not counting as the start of one. *)
Definition basename (p : str) : str := default [] (last (split 47 p)).

Definition stem (p : str) : str :=
  let name := basename p in
  match reverse (split 46 name) with
  | suffix :: (_ :: _) as front =>
      let s := drop 1 (concat (map (λ part, 46 :: part) (reverse front))) in
      match s, suffix with
      | _ :: _, _ :: _ => s
      | _, _ => name
      end
  | _ => name
  end.

Definition ends_with (suf s : str) : bool :=
  bool_decide (drop (length s - length suf) s = suf).

(** ** The data model *)

Record commit := Commit {
  hash : str;
  date : str;
  message : str
}.

Record tool := Tool {
  file : str;
  slug : str;
  title : str;
  description : str;
  commits : list commit;
  urls : list str;
  created : option str;
  updated : option str
}.

(** A file of the working directory: text, or bytes that [open(..., 'r',
    encoding='utf-8')] fails to decode. *)
Inductive content := Text (s : str) | Undecodable.

(** What a script sees and changes: the working directory, the output of
    [git log --format=%H|%aI|%B%x00 --follow -- file] for every file, and the
    lines printed so far. *)
Record world := World {
  fs : gmap str content;
  git_log : str → str;
  stdout : list str
}.

Definition read_text (w : world) (path : str) : option str :=
  match fs w !! path with
  | Some (Text s) => Some s
  | _ => None
  end.

Definition write_text (path : str) (s : str) (w : world) : world :=
  World (<[path := Text s]> (fs w)) (git_log w) (stdout w).

Definition print (line : str) (w : world) : world :=
  World (fs w) (git_log w) (stdout w ++ [line]).

(** A script either returns or stops on an uncaught exception. *)
Inductive outcome := Returned (w : world) | Raised (w : world).

(** What [git log] prints for one commit under the format of
    [get_file_commit_details]: [%H|%aI|%B], the NUL of [%x00] and the line
    end that closes every entry. *)
Definition log_entry (c : str * str * str) : str :=
  let '(h, d, b) := c in h ++ 124 :: d ++ 124 :: b ++ [NUL; LF].

(** Hash and date as git prints them have no bar, no NUL, and the hash does
    not begin with white space; the body has no NUL. *)
Definition log_fields_ok (c : str * str * str) : Prop :=
  let '(h, d, b) := c in
  (124 ∉ h) ∧ (124 ∉ d) ∧ (NUL ∉ h) ∧ (NUL ∉ d) ∧ (NUL ∉ b) ∧
  ∀ x, head h = Some x → is_space x = false.

(** ** A sample working directory

    Concrete tables, an injective coding of record lists in the place of
    JSON, and a directory with three tools, one of them without history;
    the statements below are tried on them. *)

Definition ascii_ci_eq (p c : N) : bool :=
  p =? (if (65 <=? c) && (c <=? 90) then c + 32 else c).

Definition ascii_decimal (c : N) : bool := (48 <=? c) && (c <=? 57).

Fixpoint title_from (inside : bool) (s : str) : str :=
  match s with
  | [] => []
  | c :: s' =>
      let lower := (97 <=? c) && (c <=? 122) in
      let upper := (65 <=? c) && (c <=? 90) in
      (if inside then (if upper then c + 32 else c)
       else (if lower then c - 32 else c)) :: title_from (lower || upper) s'
  end.

Definition ascii_title (s : str) : str := title_from false s.

#[global] Instance commit_eq_dec : EqDecision commit.
Proof. solve_decision. Defined.

#[global] Instance tool_eq_dec : EqDecision tool.
Proof. solve_decision. Defined.

#[global] Instance content_eq_dec : EqDecision content.
Proof. solve_decision. Defined.

#[global] Instance commit_countable : Countable commit.
Proof.
  refine (inj_countable' (λ c, (hash c, date c, message c))
                         (λ '(h, d, m), Commit h d m) _).
  by intros [].
Defined.

#[global] Instance tool_countable : Countable tool.
Proof.
  refine (inj_countable'
            (λ t, (file t, slug t, title t, description t, commits t, urls t,
                   created t, updated t))
            (λ '(f, s, t, d, c, u, cr, up), Tool f s t d c u cr up) _).
  by intros [].
Defined.

Definition code_dumps (tools : list tool) : str := [N.pos (encode tools)].

Definition code_loads (s : str) : option (list tool) :=
  match s with
  | [N.pos p] => decode p
  | _ => None
  end.

Definition plain_index (tools : list tool) : str :=
  py "<!DOCTYPE html>" ++ flat_map (λ t, py "<h2>" ++ title t ++ py "</h2>") tools.

Definition plain_colophon (tools : list tool) : str :=
  py "<!DOCTYPE html>" ++
  flat_map (λ t, py "<section id='" ++ slug t ++ py "'></section>") tools.

Definition sample_log_b : list (str * str * str) :=
  [(py "1f3a9c2e", py "2024-05-02T10:00:00+02:00",
    py "Link to https://example.com/x, see #12" ++ [LF]);
   (py "9b8d7e10", py "2024-04-01T09:30:00+02:00",
    py "Add tool <b> & docs (https://example.com/x)." ++ [LF; LF] ++
    py "More at http://example.org/a|b" ++ [LF])].

Definition sample_log_c : list (str * str * str) :=
  [(py "77aa01bc", py "2024-06-11T08:15:00+00:00", py "Start" ++ [LF])].

Definition sample_world : world :=
  World (list_to_map
           [(py "a.html", Text (py "<title>Alpha</title>"));
            (py "b.html",
             Text (py "<html><head><TITLE> Beta Tool </TITLE>" ++
                   py "<meta name='description' content=' Second tool '>" ++
                   py "</head><p>Body</p></html>"));
            (py "c.html", Text (py "<p class='x'> Third, from a paragraph </p>"));
            (py "index.html", Text (py "old index"));
            (py "notes.txt", Text (py "not a page"))])
        (λ f, if decide (f = py "b.html") then concat (log_entry <$> sample_log_b)
              else if decide (f = py "c.html") then concat (log_entry <$> sample_log_c)
              else [])
        [].

(** Two pages that open with their meta description tag: one whose
    description is padded with spaces, one whose description, in double
    quotes, holds an apostrophe. *)
Definition described (v : str) : str :=
  py "<meta name=" ++ [DQUOTE] ++ py "description" ++ [DQUOTE] ++
  py " content=" ++ [DQUOTE] ++ v ++ [DQUOTE] ++ py "><p>Body</p>".

Definition described_world : world :=
  World (list_to_map
           [(py "pad.html", Text (described (py " Padded ")));
            (py "tom.html", Text (described (py "Tom's tool")))])
        (λ _, [])
        [].

Section Scripts.

(** Tables and library routines of Python that the repository does not
    contain: the case-insensitive comparison of [re.IGNORECASE] (pattern
    character first), [str.title], the class [\d], [json.dumps] and
    [json.loads] on lists of tool records ([None]: the text is not such a
    list and the script stops on an exception), and the two page templates
    as functions of the loaded records. *)
Variable ci_eq : N → N → bool.
Variable str_title : str → str.
Variable is_decimal : N → bool.
Variable json_dumps : list tool → str.
Variable json_loads : str → option (list tool).
Variable index_page : list tool → str.
Variable colophon_page : list tool → str.

Definition lit_i (c : N) : item := One (ci_eq c).
Definition lits_i (s : str) : list item := map lit_i s.

(** ** gather_links.py *)

(** The body of the loop of [get_file_commit_details]. *)
Definition add_entry (commits : list commit) (entry : str) : list commit :=
  let entry := strip entry in
  match entry with
  | [] => commits
  | _ :: _ =>
      let parts := split_max 124 entry 2 in
      if bool_decide (3 ≤ length parts)%nat then
        match parts with
        | [commit_hash; date; message] =>
            commits ++ [Commit commit_hash date (strip message)]
        | _ => commits
        end
      else commits
  end.

Definition parse_log (stdout : str) : list commit :=
  fold_left add_entry (split NUL stdout) [].

Definition get_file_commit_details (w : world) (file_path : str) : list commit :=
  parse_log (git_log w file_path).

(** The character class of [url_pattern]: anything but white space, angle
    brackets, the two quotes, round, square and curly brackets, and NUL. *)
Definition url_char (c : N) : bool :=
  negb (is_space c || mem c (py "<>" ++ [DQUOTE; SQUOTE] ++ py ")(][}{" ++ [NUL])).

(** [url_pattern]: http, an optional s, a colon and two slashes, then one
    or more characters of the class. *)
Definition url_pattern : pattern :=
  Pattern (lits (py "http") ++ [Opt (N.eqb 115)] ++ lits (py "://") ++ [Many 1 url_char])
          [] [].

Definition extract_urls (text : str) : list str :=
  let urls := re_findall url_pattern text in
  rstrip (py ".,;:!?") <$> urls.

(** [<title>([^<]+)</title>], ignoring case. *)
Definition title_pattern : pattern :=
  Pattern (lits (py "<") ++ lits_i (py "title") ++ lits (py ">"))
          [Many 1 (λ c, negb (c =? 60))]
          (lits (py "</") ++ lits_i (py "title") ++ lits (py ">")).

Definition extract_title (w : world) (html_path : str) : str :=
  let fallback :=
    str_title (replace 95 (py " ") (replace 45 (py " ") (stem html_path))) in
  match read_text w html_path with
  | Some content =>
      match re_search title_pattern content with
      | Some m => strip (m_group m)
      | None => fallback
      end
  | None => fallback
  end.

Definition quote (c : N) : bool := mem c [DQUOTE; SQUOTE].

(** The meta pattern: [<meta], white space, [name=], a quote, [description],
    a quote, white space, [content=], a quote, the group of one or more
    characters that are not quotes, a quote; ignoring case. *)
Definition meta_pattern : pattern :=
  Pattern (lits (py "<") ++ lits_i (py "meta") ++ [Many 1 is_space] ++
           lits_i (py "name") ++ lits (py "=") ++ [One quote] ++
           lits_i (py "description") ++ [One quote; Many 1 is_space] ++
           lits_i (py "content") ++ lits (py "=") ++ [One quote])
          [Many 1 (λ c, negb (quote c))]
          [One quote].

(** [<p[^>]*>([^<]+)</p>], ignoring case. *)
Definition p_pattern : pattern :=
  Pattern (lits (py "<") ++ lits_i (py "p") ++ [Many 0 (λ c, negb (c =? 62))] ++
           lits (py ">"))
          [Many 1 (λ c, negb (c =? 60))]
          (lits (py "</") ++ lits_i (py "p") ++ lits (py ">")).

Definition extract_description (w : world) (html_path : str) : str :=
  match read_text w html_path with
  | Some content =>
      match re_search meta_pattern content with
      | Some m => strip (m_group m)
      | None =>
          match re_search p_pattern content with
          | Some m => take 200 (strip (m_group m))
          | None => []
          end
      end
  | None => []
  end.

Definition GATHERED : str := py "gathered_links.json".
Definition INDEX : str := py "index.html".
Definition COLOPHON : str := py "colophon.html".

(** [sorted(Path('.').glob('*.html'))] *)
Definition html_files (w : world) : list str :=
  stable_sort str_ltb (filter (λ name, ends_with (py ".html") name = true)
                              (elements (dom (fs w)))).

Definition generated (name : str) : bool :=
  bool_decide (name ∈ [INDEX; COLOPHON; py "by-month.html"]).

(** [list(set(all_urls))]: the distinct elements, in the order of the set. *)
Definition list_set (l : list str) : list str :=
  elements (list_to_set l : gset str).

(** One turn of the loop of [main]. *)
Definition visit (w : world) (tools : list tool) (html_path : str) : list tool :=
  let file_path := html_path in
  if generated (basename html_path) then tools
  else
    let commits := get_file_commit_details w file_path in
    match commits with
    | [] => tools
    | _ :: _ =>
        let all_urls := flat_map (λ c, extract_urls (message c)) commits in
        let title := extract_title w file_path in
        let description := extract_description w file_path in
        let slug := stem html_path in
        let created := date <$> last commits in
        let updated := date <$> head commits in
        tools ++ [Tool file_path slug title description commits
                       (list_set all_urls) created updated]
    end.

Definition collect (w : world) : list tool :=
  fold_left (visit w) (html_files w) [].

(** [x['updated'] or ''] *)
Definition sort_key (x : tool) : str :=
  match updated x with
  | Some (c :: d) => c :: d
  | _ => []
  end.

(** [tools.sort(key=..., reverse=True)] *)
Definition sort_tools (tools : list tool) : list tool :=
  stable_sort (λ y x, str_ltb (sort_key x) (sort_key y)) tools.

Definition gathered (w : world) : list tool := sort_tools (collect w).

Definition summary (tools : list tool) : list str :=
  (py "Gathered data for " ++ py_nat (length tools) ++ py " tool(s)") ::
  map (λ t, py "  - " ++ title t ++ py " (" ++ py_nat (length (commits t)) ++
            py " commits)") tools.

Definition main (w : world) : world :=
  let tools := gathered w in
  let w := write_text GATHERED (json_dumps tools) w in
  fold_left (λ w line, print line w) (summary tools) w.

(** ** build_index.py and build_colophon.py *)

Definition GITHUB_REPO : str := py "bmadhusu/tools".

Definition NOT_FOUND : str :=
  py "Error: gathered_links.json not found. Run gather_links.py first.".

(** [open] and [json.load] of the intermediate file: [inl] is the
    [FileNotFoundError] that both scripts catch, [inr None] any other
    exception. *)
Definition load_gathered (w : world) : unit + option (list tool) :=
  match fs w !! GATHERED with
  | None => inl tt
  | Some Undecodable => inr None
  | Some (Text s) => inr (json_loads s)
  end.

Definition build_index (w : world) : outcome :=
  match load_gathered w with
  | inl _ => Returned (print NOT_FOUND w)
  | inr None => Raised w
  | inr (Some tools) =>
      let w := write_text INDEX (index_page tools) w in
      Returned (print (py "Built index.html with " ++ py_nat (length tools) ++
                       py " tool(s)") w)
  end.

(** [html.escape(s)], with [quote=True]. *)
Definition html_escape (s : str) : str :=
  let s := replace 38 (py "&amp;") s in
  let s := replace 60 (py "&lt;") s in
  let s := replace 62 (py "&gt;") s in
  let s := replace DQUOTE (py "&quot;") s in
  replace SQUOTE (py "&#x27;") s.

(** [(https?://[^\s<>&]+)] *)
Definition link_pattern : pattern :=
  Pattern []
          (lits (py "http") ++ [Opt (N.eqb 115)] ++ lits (py "://") ++
           [Many 1 (λ c, negb (is_space c || mem c (py "<>&")))])
          [].

Definition link_template : list tpart :=
  [Txt (py "<a href=" ++ [DQUOTE]); Ref1;
   Txt ([DQUOTE] ++ py " target=" ++ [DQUOTE] ++ py "_blank" ++ [DQUOTE] ++
        py " rel=" ++ [DQUOTE] ++ py "noopener" ++ [DQUOTE] ++ py ">");
   Ref1; Txt (py "</a>")].

(** [#(\d+)] *)
Definition issue_pattern : pattern :=
  Pattern (lits (py "#")) [Many 1 is_decimal] [].

Definition issue_template : list tpart :=
  [Txt (py "<a href=" ++ [DQUOTE] ++ py "https://github.com/" ++ GITHUB_REPO ++
        py "/issues/");
   Ref1; Txt ([DQUOTE] ++ py ">#"); Ref1; Txt (py "</a>")].

Definition format_commit_message (message : str) : str :=
  let escaped := html_escape message in
  let escaped := re_sub link_pattern link_template escaped in
  let escaped := re_sub issue_pattern issue_template escaped in
  replace LF (py "<br>" ++ [LF]) escaped.

Definition build_colophon (w : world) : outcome :=
  match load_gathered w with
  | inl _ => Returned (print NOT_FOUND w)
  | inr None => Raised w
  | inr (Some tools) =>
      let w := write_text COLOPHON (colophon_page tools) w in
      Returned (print (py "Built colophon.html with " ++ py_nat (length tools) ++
                       py " tool(s)") w)
  end.

(** The three scripts in their order; a script that raises ends the run. *)
Definition pipeline (w : world) : outcome :=
  match build_index (main w) with
  | Returned w => build_colophon w
  | Raised w => Raised w
  end.

(** ** The order of [list(set(...))]

    The order in which a set gives its elements is fixed within one run of
    the interpreter and may differ from run to run.  The gather step once
    more, with that order as [order]; [visit], [collect], [gathered],
    [main] and [pipeline] are these with [list_set] for [order]. *)
Definition visit_in (order : list str → list str) (w : world)
    (tools : list tool) (html_path : str) : list tool :=
  let file_path := html_path in
  if generated (basename html_path) then tools
  else
    let commits := get_file_commit_details w file_path in
    match commits with
    | [] => tools
    | _ :: _ =>
        let all_urls := flat_map (λ c, extract_urls (message c)) commits in
        let title := extract_title w file_path in
        let description := extract_description w file_path in
        let slug := stem html_path in
        let created := date <$> last commits in
        let updated := date <$> head commits in
        tools ++ [Tool file_path slug title description commits
                       (order all_urls) created updated]
    end.

Definition collect_in (order : list str → list str) (w : world) : list tool :=
  fold_left (visit_in order w) (html_files w) [].

Definition gathered_in (order : list str → list str) (w : world) : list tool :=
  sort_tools (collect_in order w).

Definition main_in (order : list str → list str) (w : world) : world :=
  let tools := gathered_in order w in
  let w := write_text GATHERED (json_dumps tools) w in
  fold_left (λ w line, print line w) (summary tools) w.

Definition pipeline_in (order : list str → list str) (w : world) : outcome :=
  match build_index (main_in order w) with
  | Returned w => build_colophon w
  | Raised w => Raised w
  end.

(** ** Predicates used in the statements *)

(** What one item may match. *)
Definition item_ok (it : item) (m : str) : Prop :=
  match it with
  | One p => ∃ c, m = [c] ∧ p c = true
  | Opt p => m = [] ∨ ∃ c, m = [c] ∧ p c = true
  | Many least p => Forall (λ c, p c = true) m ∧ (least ≤ length m)%nat
  end.

Fixpoint pieces_ok (its : list item) (ps : list str) : Prop :=
  match its, ps with
  | [], [] => True
  | it :: its', m :: ps' => item_ok it m ∧ pieces_ok its' ps'
  | _, _ => False
  end.

(** The fields of a log entry: its stripped text is [h|d|m] with no bar in
    [h] and [d]. *)
Definition entry_fields (entry h d m : str) : Prop :=
  strip entry = h ++ 124 :: d ++ 124 :: m ∧ (124 ∉ h) ∧ (124 ∉ d).

(** The record that [get_file_commit_details] is to return for it. *)
Definition log_commit (c : str * str * str) : commit :=
  let '(h, d, b) := c in Commit h d (strip b).

(** The record that one turn of the loop of [main] appends for a file with
    commits. *)
Definition tool_record (w : world) (f : str) : tool :=
  let commits := get_file_commit_details w f in
  Tool f (stem f) (extract_title w f) (extract_description w f) commits
       (list_set (flat_map (λ c, extract_urls (message c)) commits))
       (date <$> last commits) (date <$> head commits).

(** The files of which [main] makes a record. *)
Definition has_history (w : world) (f : str) : Prop :=
  f ∈ html_files w ∧ generated (basename f) = false ∧
  get_file_commit_details w f ≠ [].

(** In the words of the specification: on a file without history the gather
    step prints a message and returns, so that nothing else is printed and
    nothing is written. *)
Definition returns_early (w : world) : Prop :=
  ∃ msg, main w = print msg w.

(** Text made of single characters that pass [P] and of whole pieces taken
    from the list [T]. *)
Inductive tokens (P : N → bool) (T : list str) : str → Prop :=
  | tokens_nil : tokens P T []
  | tokens_char c s : P c = true → tokens P T s → tokens P T (c :: s)
  | tokens_piece t s : t ∈ T → tokens P T s → tokens P T (t ++ s).

(** The characters that [html.escape] must not leave as they are. *)
Definition special (c : N) : bool := mem c (py "<>&").

(** The entities that [html.escape] writes. *)
Definition ENTITIES : list str :=
  [py "&amp;"; py "&lt;"; py "&gt;"; py "&quot;"; py "&#x27;"].

Definition template_texts (tpl : list tpart) : list str :=
  omap (λ part, match part with Txt t => Some t | Ref1 => None end) tpl.

(** The literal text of the two anchor templates and the replacement of a
    line end: all that [format_commit_message] inserts. *)
Definition INSERTED : list str :=
  template_texts link_template ++ template_texts issue_template ++
  [py "<br>" ++ [LF]].

(** Escaped text with inserted anchors and line breaks: every character is
    an ordinary one, or lies in an entity or in inserted text. *)
Definition markup (s : str) : Prop :=
  tokens (λ c, negb (special c)) (ENTITIES ++ INSERTED) s.

(** The files of which [main] makes a record, as a test: not a generated
    page, and with commits. *)
Definition recorded (w : world) (f : str) : bool :=
  negb (generated (basename f)) &&
  match get_file_commit_details w f with
  | [] => false
  | _ :: _ => true
  end.

(** The test of an item, and a match result with text put after what was
    left unread. *)
Definition item_test (it : item) : N → bool :=
  match it with
  | One p | Opt p | Many _ p => p
  end.

Definition extend (y : str) (r : option pieces) : option pieces :=
  match r with
  | Some (ps, t) => Some (ps, t ++ y)
  | None => None
  end.

(** What every run has of the order of a set: each element of the list
    once. *)
Definition set_order (order : list str → list str) : Prop :=
  ∀ l, NoDup (order l) ∧ ∀ x, x ∈ order l ↔ x ∈ l.

(** Two records that differ at most in the order of their urls. *)
Definition same_record (a b : tool) : Prop :=
  file a = file b ∧ slug a = slug b ∧ title a = title b ∧
  description a = description b ∧ commits a = commits b ∧
  urls a ≡ₚ urls b ∧ created a = created b ∧ updated a = updated b.

(** The record that one turn of the loop makes when sets are in the order
    [order]. *)
Definition tool_record_in (order : list str → list str) (w : world) (f : str)
  : tool :=
  let commits := get_file_commit_details w f in
  Tool f (stem f) (extract_title w f) (extract_description w f) commits
       (order (flat_map (λ c, extract_urls (message c)) commits))
       (date <$> last commits) (date <$> head commits).

(** A word of the pattern matched whatever the case of the text. *)
Definition ci_word (word text : str) : Prop :=
  Forall2 (λ p c, ci_eq p c = true) word text.

(** A title element: the opening tag, the text [v], the closing tag. *)
Definition title_tag (opening v closing : str) : str :=
  py "<" ++ opening ++ py ">" ++ v ++ py "</" ++ closing ++ py ">".

(** The meta description tag as a page writes it, up to the end of its
    [content] attribute: the name in the quote [qn], the content [v] in the
    quote [q]. *)
Definition meta_tag (qn q : N) (v : str) : str :=
  py "<meta name=" ++ [qn] ++ py "description" ++ [qn] ++
  py " content=" ++ [q] ++ v ++ [q].

(** No match of [pat] starts inside [pre] when [s] follows it. *)
Definition no_match_before (pat : pattern) (pre s : str) : Prop :=
  ∀ pre1 t, pre = pre1 ++ t → t ≠ [] → match_at pat (t ++ s) = None.

(** In the words of the specification: when the first place where the meta
    pattern matches is a meta description tag, the content of that tag is
    returned. *)
Definition returns_tag_content (w : world) (html_path : str) : Prop :=
  ∀ pre qn q v rest,
    read_text w html_path = Some (pre ++ meta_tag qn q v ++ rest) →
    no_match_before meta_pattern pre (meta_tag qn q v ++ rest) →
    quote qn = true → quote q = true → v ≠ [] → (q ∉ v) →
    extract_description w html_path = v.

(** What [html.escape] is to write for one character: the entity of each
    of the five characters it escapes, the character itself otherwise. *)
Definition escape_char (c : N) : str :=
  if c =? 38 then py "&amp;"
  else if c =? 60 then py "&lt;"
  else if c =? 62 then py "&gt;"
  else if c =? DQUOTE then py "&quot;"
  else if c =? SQUOTE then py "&#x27;"
  else [c].

(** * Properties *)

#[local] Arguments N.eqb : simpl nomatch.
#[local] Arguments N.leb : simpl nomatch.
#[local] Arguments N.ltb : simpl nomatch.

(** For statements about the strings alone: forgets the tables. *)
Ltac no_tables := repeat match goal with H : _ |- _ => clear H end.

(** Literals of the source as numerals. *)
Ltac py_eval :=
  repeat match goal with
         | |- context [py ?s] =>
             let v := eval vm_compute in (py s) in change (py s) with v
         | H : context [py ?s] |- _ =>
             let v := eval vm_compute in (py s) in change (py s) with v in H
         end.

(** ** The matcher *)

(** Takes apart what [pieces_ok] says of a pattern that is known. *)
Ltac break_pieces :=
  repeat match goal with
         | H : False |- _ => destruct H
         | H : True |- _ => clear H
         | H : match ?l with [] => _ | _ :: _ => _ end |- _ => destruct l
         | H : _ ∧ _ |- _ => destruct H
         | H : ∃ _, _ |- _ => destruct H
         | H : (_ =? _) = true |- _ => apply N.eqb_eq in H
         end.

Lemma many_sound p k s : ∀ least m r,
  many p least k s = Some (m, r) →
  Forall (λ c, p c = true) m ∧ (least ≤ length m)%nat ∧
  ∃ s', s = m ++ s' ∧ k s' = Some r.
Proof.
  induction s as [|c s IH]; intros least m r H; simpl in H.
  - destruct least; [|done]. destruct (k []) eqn:E; [|done].
    injection H as <- <-. repeat split; [constructor|simpl; lia|]. by exists [].
  - assert (Hstop : match least with
                    | O => match k (c :: s) with Some r0 => Some ([], r0) | None => None end
                    | S _ => None
                    end = Some (m, r) →
            Forall (λ c, p c = true) m ∧ (least ≤ length m)%nat ∧
            ∃ s', c :: s = m ++ s' ∧ k s' = Some r).
    { intros H'. destruct least; [|done]. destruct (k (c :: s)) eqn:E; [|done].
      injection H' as <- <-. repeat split; [constructor|simpl; lia|].
      by exists (c :: s). }
    destruct (p c) eqn:Hp; [|by apply Hstop].
    destruct (many p (pred least) k s) as [[m' r']|] eqn:E; [|by apply Hstop].
    injection H as <- <-. destruct (IH _ _ _ E) as (Hall & Hlen & s' & -> & Hk).
    repeat split; [by constructor|simpl; lia|]. by exists s'.
Qed.

Lemma match_items_sound its : ∀ s ps t,
  match_items its s = Some (ps, t) → pieces_ok its ps ∧ s = concat ps ++ t.
Proof.
  induction its as [|it its IH]; intros s ps t H; simpl in H.
  - by injection H as <- <-.
  - destruct it as [p|p|least p].
    + destruct s as [|c s]; [done|]. destruct (p c) eqn:Hp; [|done].
      destruct (match_items its s) as [[ps' t']|] eqn:E; [|done].
      injection H as <- <-. destruct (IH _ _ _ E) as [Hok ->].
      split; [|done]. split; [|done]. by exists c.
    + assert (Hskip : push [] (match_items its s) = Some (ps, t) →
                      pieces_ok (Opt p :: its) ps ∧ s = concat ps ++ t).
      { intros H'. destruct (match_items its s) as [[ps' t']|] eqn:E; [|done].
        injection H' as <- <-. destruct (IH _ _ _ E) as [Hok ->].
        split; [|done]. split; [by left|done]. }
      destruct s as [|c s]; [by apply Hskip|].
      destruct (p c) eqn:Hp; [|by apply Hskip].
      destruct (match_items its s) as [[ps' t']|] eqn:E; [|by apply Hskip].
      injection H as <- <-. destruct (IH _ _ _ E) as [Hok ->].
      split; [|done]. split; [|done]. right. by exists c.
    + destruct (many p least (match_items its) s) as [[m [ps' t']]|] eqn:E; [|done].
      injection H as <- <-.
      destruct (many_sound _ _ _ _ _ _ E) as (Hall & Hlen & s' & -> & Hk).
      destruct (IH _ _ _ Hk) as [Hok ->].
      split; [done|]. simpl. by rewrite app_assoc.
Qed.

Lemma pieces_ok_app its1 its2 : ∀ ps,
  pieces_ok (its1 ++ its2) ps →
  ∃ ps1 ps2, ps = ps1 ++ ps2 ∧ length ps1 = length its1 ∧
             pieces_ok its1 ps1 ∧ pieces_ok its2 ps2.
Proof.
  induction its1 as [|it its1 IH]; intros ps H; simpl in H.
  - by exists [], ps.
  - destruct ps as [|m ps]; [done|]. destruct H as [Hm H].
    destruct (IH _ H) as (ps1 & ps2 & -> & Hlen & H1 & H2).
    exists (m :: ps1), ps2. simpl. by rewrite Hlen.
Qed.

Lemma pieces_ok_length its : ∀ ps, pieces_ok its ps → length ps = length its.
Proof.
  induction its as [|it its IH]; intros [|m ps]; simpl; try done.
  intros [_ H]. by rewrite (IH _ H).
Qed.

(** A match, cut at the brackets of the group. *)
Lemma match_at_parts pat s m :
  match_at pat s = Some m →
  ∃ ps1 ps2 ps3,
    pieces_ok (before pat) ps1 ∧ pieces_ok (group pat) ps2 ∧
    pieces_ok (after pat) ps3 ∧
    m_whole m = concat ps1 ++ concat ps2 ++ concat ps3 ∧
    m_group m = concat ps2 ∧ s = m_whole m ++ m_rest m.
Proof.
  unfold match_at. destruct (match_items _ s) as [[ps t]|] eqn:E; [|done].
  intros [= <-]. simpl. apply match_items_sound in E as [Hok ->].
  apply pieces_ok_app in Hok as (ps1 & ps' & -> & Hlen1 & H1 & Hok).
  apply pieces_ok_app in Hok as (ps2 & ps3 & -> & Hlen2 & H2 & H3).
  exists ps1, ps2, ps3. rewrite !concat_app.
  rewrite <-Hlen1, drop_app_length, <-Hlen2, take_app_length. done.
Qed.

Lemma findall_from_elem pat u s : ∀ skip,
  u ∈ findall_from pat skip s → ∃ s' m, match_at pat s' = Some m ∧ m_whole m = u.
Proof.
  induction s as [|c s IH]; intros skip H.
  - destruct skip; simpl in H; [|by apply elem_of_nil in H].
    destruct (match_at pat []) as [m|] eqn:E; [|by apply elem_of_nil in H].
    apply list_elem_of_singleton in H as ->. eauto.
  - destruct skip; simpl in H; [|by eapply IH].
    destruct (match_at pat (c :: s)) as [m|] eqn:E; [|by eapply IH].
    apply elem_of_cons in H as [->|H]; [eauto|by eapply IH].
Qed.

(** ** Stripping *)

Lemma rstrip_by_last p s c : last (rstrip_by p s) = Some c → p c = false.
Proof.
  induction s as [|x s IH]; simpl; [done|].
  destruct (rstrip_by p s) as [|y r] eqn:E.
  - destruct (p x) eqn:Hp; simpl; [done|]. by intros [= <-].
  - change (last (x :: y :: r)) with (last (y :: r)). exact IH.
Qed.

Lemma rstrip_by_prefix p s : ∃ t, s = rstrip_by p s ++ t.
Proof.
  induction s as [|x s [t IH]]; simpl; [by exists []|].
  destruct (rstrip_by p s) as [|y r] eqn:E.
  - destruct (p x); [by exists (x :: s)|]. exists t. simpl. by rewrite IH at 1.
  - exists t. simpl. by rewrite IH at 1.
Qed.

(** A character that is kept protects everything before it. *)
Lemma rstrip_by_app p a x b :
  p x = false → rstrip_by p (a ++ x :: b) = a ++ x :: rstrip_by p b.
Proof.
  intros Hx. induction a as [|y a IH]; simpl.
  - destruct (rstrip_by p b); [by rewrite Hx|done].
  - rewrite IH. by destruct a.
Qed.

Lemma lstrip_by_suffix p s : ∃ t, s = t ++ lstrip_by p s.
Proof.
  induction s as [|x s [t IH]]; simpl; [by exists []|].
  destruct (p x); [|by exists []]. exists (x :: t). simpl. by rewrite <-IH.
Qed.

Lemma lstrip_by_head p s c : head (lstrip_by p s) = Some c → p c = false.
Proof.
  induction s as [|x s IH]; simpl; [done|].
  destruct (p x) eqn:Hp; [done|]. by intros [= <-].
Qed.

(** ** extract_urls *)

Lemma url_pattern_shape s m :
  match_at url_pattern s = Some m →
  ∃ body, (m_whole m = py "http://" ++ body ∨ m_whole m = py "https://" ++ body) ∧
          Forall (λ c, url_char c = true) body.
Proof.
  unfold match_at, url_pattern. py_eval.
  destruct (match_items _ s) as [[ps t]|] eqn:E; [|done]. intros [= <-]. simpl.
  apply match_items_sound in E as [Hok _]. simpl in Hok.
  break_pieces. subst. simpl. rewrite app_nil_r.
  eexists. split; [|eassumption].
  match goal with H : _ ∨ _ |- _ => destruct H as [->|(c & -> & Hc)] end;
    [by left|]. apply N.eqb_eq in Hc as <-. by right.
Qed.

Lemma rstrip_keeps_scheme chars pre body :
  last pre = Some 47 → mem 47 chars = false →
  starts_with pre (rstrip chars (pre ++ body)).
Proof.
  intros Hlast Hmem. destruct (last_Some pre 47) as [[a ->] _]; [done|].
  unfold rstrip. rewrite <-app_assoc. simpl.
  rewrite rstrip_by_app by done. eexists. by rewrite <-app_assoc.
Qed.

(** C6: every string returned by [extract_urls] begins with [http://] or
    [https://], contains no white space, angle bracket, double or single
    quote, round, square or curly bracket and no NUL, and does not end with
    one of the characters [.,;:!?]. *)
Theorem extract_urls_shape (text u : str) :
  u ∈ extract_urls text →
  (starts_with (py "http://") u ∨ starts_with (py "https://") u) ∧
  Forall (λ c, is_space c = false ∧
               c ∉ py "<>" ++ [DQUOTE; SQUOTE] ++ py "()[]{}" ++ [NUL]) u ∧
  (∀ c, last u = Some c → c ∉ py ".,;:!?").
Proof using.
  no_tables.
  unfold extract_urls. intros (m & -> & Hm)%list_elem_of_fmap.
  apply findall_from_elem in Hm as (s' & r & Hr & <-).
  apply url_pattern_shape in Hr as (body & Hwhole & Hbody).
  split; [|split].
  - destruct Hwhole as [-> | ->]; [left|right];
      by apply rstrip_keeps_scheme.
  - assert (Hall : Forall (λ c, url_char c = true) (m_whole r)).
    { destruct Hwhole as [-> | ->]; (apply Forall_app; split; [|done]);
        by repeat constructor. }
    destruct (rstrip_by_prefix (λ c, mem c (py ".,;:!?")) (m_whole r)) as [t Ht].
    rewrite Ht in Hall. apply Forall_app in Hall as [Hall _].
    eapply Forall_impl; [exact Hall|]. intros c Hc. unfold url_char in Hc.
    apply negb_true_iff, orb_false_iff in Hc as [Hsp Hmem]. split; [done|].
    intros Hin. py_eval. unfold mem in Hmem.
    rewrite <-not_true_iff_false, existsb_exists in Hmem. apply Hmem.
    exists c. rewrite N.eqb_refl. split; [|done]. apply list_elem_of_In.
    simpl in Hin |- *. rewrite !elem_of_cons in Hin |- *. tauto.
  - intros c Hc. apply rstrip_by_last in Hc. intros Hin. unfold mem in Hc.
    rewrite <-not_true_iff_false, existsb_exists in Hc. apply Hc.
    exists c. rewrite N.eqb_refl. split; [|done]. by apply list_elem_of_In.
Qed.


(** ** get_file_commit_details *)

Lemma split_max_nonempty sep s n : split_max sep s n ≠ [].
Proof.
  revert n. induction s as [|c s IH]; intros n; simpl; [done|].
  destruct n; [done|]. destruct (c =? sep); [done|].
  specialize (IH (S n)). by destruct (split_max sep s (S n)).
Qed.

Lemma split_max_length sep s n : (length (split_max sep s n) ≤ S n)%nat.
Proof.
  revert n. induction s as [|c s IH]; intros n; simpl; [lia|].
  destruct n; [simpl; lia|]. destruct (c =? sep); simpl; [specialize (IH n); lia|].
  specialize (IH (S n)). destruct (split_max sep s (S n)); simpl in *; lia.
Qed.

Lemma split_max_0 sep s : split_max sep s 0 = [s].
Proof. by destruct s. Qed.

Lemma split_max_app sep p s k :
  sep ∉ p → split_max sep (p ++ sep :: s) (S k) = p :: split_max sep s k.
Proof.
  induction p as [|c p IH]; intros Hp; simpl.
  - by rewrite N.eqb_refl.
  - apply not_elem_of_cons in Hp as [Hc Hp].
    destruct (N.eqb_spec c sep); [congruence|]. by rewrite IH.
Qed.

Lemma split_max_cons_inv sep s k p q ps :
  split_max sep s (S k) = p :: q :: ps →
  ∃ s', s = p ++ sep :: s' ∧ (sep ∉ p) ∧ split_max sep s' k = q :: ps.
Proof.
  revert p. induction s as [|c s IH]; intros p; simpl; [done|].
  destruct (N.eqb_spec c sep) as [->|Hne].
  - intros [= <- H]. exists s. split; [done|]. split; [apply not_elem_of_nil|done].
  - destruct (split_max sep s (S k)) as [|p' ps'] eqn:E; simpl; [done|].
    intros [= <- ->]. destruct (IH _ eq_refl) as (s' & -> & Hp & Hs).
    exists s'. split; [done|]. split; [|done].
    apply not_elem_of_cons. split; [congruence|done].
Qed.

Lemma split_max_3 s h d m :
  split_max 124 s 2 = [h; d; m] ↔ s = h ++ 124 :: d ++ 124 :: m ∧ (124 ∉ h) ∧ (124 ∉ d).
Proof.
  split.
  - intros H. apply split_max_cons_inv in H as (s1 & -> & Hh & H).
    apply split_max_cons_inv in H as (s2 & -> & Hd & H).
    rewrite split_max_0 in H. by injection H as ->.
  - intros (-> & Hh & Hd). by rewrite !split_max_app, split_max_0.
Qed.

Lemma add_entry_fields acc entry h d m :
  entry_fields entry h d m → add_entry acc entry = acc ++ [Commit h d (strip m)].
Proof.
  intros (Hs & Hh & Hd). unfold add_entry.
  assert (Hsplit : split_max 124 (strip entry) 2 = [h; d; m]).
  { apply split_max_3. by rewrite Hs. }
  rewrite Hsplit. destruct (strip entry) eqn:E; [by destruct h|done].
Qed.

Lemma add_entry_cases acc entry :
  add_entry acc entry = acc ∨
  ∃ h d m, entry_fields entry h d m ∧
           add_entry acc entry = acc ++ [Commit h d (strip m)].
Proof.
  unfold add_entry. destruct (strip entry) as [|c e] eqn:E; [by left|].
  case_bool_decide as Hlen; [|by left].
  destruct (split_max 124 (c :: e) 2) as [|h [|d [|m [|x ps]]]] eqn:Hs; auto.
  right. exists h, d, m. split; [|done].
  apply split_max_3 in Hs as (Heq & Hh & Hd). unfold entry_fields. by rewrite E.
Qed.

Lemma fold_add_entry r es : ∀ acc,
  r ∈ fold_left add_entry es acc ↔
  r ∈ acc ∨ ∃ entry h d m, entry ∈ es ∧ entry_fields entry h d m ∧
                          r = Commit h d (strip m).
Proof.
  induction es as [|e es IH]; intros acc; simpl.
  - split; [by left|]. intros [H|(e & h & d & m & []%elem_of_nil & _)]; done.
  - rewrite IH. split.
    + intros [H|(e' & h & d & m & He' & Hf & ->)].
      * destruct (add_entry_cases acc e) as [Heq|(h & d & m & Hf & Heq)];
          rewrite Heq in H; [by left|].
        apply elem_of_app in H as [H|H%list_elem_of_singleton]; [by left|].
        right. exists e, h, d, m. split; [left|done].
      * right. exists e', h, d, m. split; [by right|done].
    + intros [H|(e' & h & d & m & He' & Hf & ->)].
      * left. destruct (add_entry_cases acc e) as [Heq|(h & d & m & Hf & Heq)];
          rewrite Heq; [done|]. apply elem_of_app. by left.
      * apply elem_of_cons in He' as [->|He'].
        -- left. rewrite (add_entry_fields _ _ _ _ _ Hf). apply elem_of_app. right. left.
        -- right. by exists e', h, d, m.
Qed.


Lemma split_app_sep sep a t :
  sep ∉ a → split sep (a ++ sep :: t) = a :: split sep t.
Proof.
  induction a as [|c a IH]; intros Ha; simpl.
  - by rewrite N.eqb_refl.
  - apply not_elem_of_cons in Ha as [Hc Ha].
    destruct (N.eqb_spec c sep); [congruence|]. by rewrite IH.
Qed.

Lemma split_no_sep sep a : sep ∉ a → split sep a = [a].
Proof.
  induction a as [|c a IH]; intros Ha; simpl; [done|].
  apply not_elem_of_cons in Ha as [Hc Ha].
  destruct (N.eqb_spec c sep); [congruence|]. by rewrite IH.
Qed.

Lemma lstrip_by_all p lead s :
  Forall (λ c, p c = true) lead → lstrip_by p (lead ++ s) = lstrip_by p s.
Proof. induction 1 as [|c lead Hc _ IH]; simpl; [done|]. by rewrite Hc. Qed.

Lemma lstrip_by_id p s :
  (∀ x, head s = Some x → p x = false) → lstrip_by p s = s.
Proof. destruct s as [|c s]; simpl; [done|]. intros H. by rewrite H. Qed.

Lemma rstrip_by_nonempty p x s : p x = false → rstrip_by p (x :: s) ≠ [].
Proof. intros Hx. simpl. destruct (rstrip_by p s); [by rewrite Hx|done]. Qed.

Lemma lstrip_rstrip_comm p b :
  lstrip_by p (rstrip_by p b) = rstrip_by p (lstrip_by p b).
Proof.
  induction b as [|x b IH]; [done|].
  destruct (p x) eqn:Hx.
  - change (lstrip_by p (x :: b)) with (if p x then lstrip_by p b else x :: b).
    rewrite Hx, <-IH. simpl. destruct (rstrip_by p b) as [|y r]; simpl.
    + by rewrite Hx.
    + by rewrite Hx.
  - change (lstrip_by p (x :: b)) with (if p x then lstrip_by p b else x :: b).
    rewrite Hx. pose proof (rstrip_by_nonempty p x b Hx) as Hne.
    assert (Hhead : head (rstrip_by p (x :: b)) = Some x).
    { simpl. destruct (rstrip_by p b); [by rewrite Hx|done]. }
    apply lstrip_by_id. intros y. rewrite Hhead. by intros [= <-].
Qed.

Lemma rstrip_by_idem p s : rstrip_by p (rstrip_by p s) = rstrip_by p s.
Proof.
  induction s as [|x s IH]; [done|]. simpl.
  destruct (rstrip_by p s) as [|y r] eqn:E.
  - destruct (p x) eqn:Hx; simpl; [done|]. by rewrite Hx.
  - change (rstrip_by p (x :: y :: r)) with
      (match rstrip_by p (y :: r) with
       | [] => if p x then [] else [x]
       | _ :: _ => x :: rstrip_by p (y :: r)
       end).
    by rewrite IH.
Qed.

Lemma strip_rstrip b : strip (rstrip_by is_space b) = strip b.
Proof. unfold strip. by rewrite lstrip_rstrip_comm, rstrip_by_idem. Qed.

Lemma strip_ends s :
  (∀ c, head (strip s) = Some c → is_space c = false) ∧
  (∀ c, last (strip s) = Some c → is_space c = false).
Proof.
  split; intros c Hc; [|by eapply rstrip_by_last].
  unfold strip in Hc. apply (lstrip_by_head is_space s).
  destruct (rstrip_by_prefix is_space (lstrip_by is_space s)) as [t Ht].
  rewrite Ht. by destruct (rstrip_by is_space (lstrip_by is_space s)).
Qed.

Lemma strip_spaces lead : Forall (λ c, is_space c = true) lead → strip lead = [].
Proof.
  intros H. unfold strip. rewrite <-(app_nil_r lead). by rewrite lstrip_by_all.
Qed.

Lemma log_entry_fields lead h d b :
  Forall (λ c, is_space c = true) lead →
  log_fields_ok (h, d, b) →
  entry_fields (lead ++ h ++ 124 :: d ++ 124 :: b) h d (rstrip_by is_space b).
Proof.
  intros Hlead (Hh & Hd & _ & _ & _ & Hhead). split; [|done].
  unfold strip. rewrite lstrip_by_all by done. rewrite lstrip_by_id.
  - replace (h ++ 124 :: d ++ 124 :: b) with ((h ++ 124 :: d) ++ 124 :: b)
      by by rewrite <-app_assoc.
    rewrite rstrip_by_app by done. by rewrite <-app_assoc.
  - destruct h; simpl; [by intros x [= <-]|done].
Qed.

Lemma log_entry_app lead h d b rest :
  lead ++ log_entry (h, d, b) ++ rest =
  (lead ++ h ++ 124 :: d ++ 124 :: b) ++ NUL :: [LF] ++ rest.
Proof.
  simpl. rewrite <-!app_assoc. simpl. rewrite <-!app_assoc. simpl.
  by rewrite <-!app_assoc.
Qed.

Lemma parse_log_entries cs : ∀ lead acc,
  Forall log_fields_ok cs →
  Forall (λ c, is_space c = true) lead → NUL ∉ lead →
  fold_left add_entry (split NUL (lead ++ concat (log_entry <$> cs))) acc =
  acc ++ (log_commit <$> cs).
Proof.
  induction cs as [|[[h d] b] cs IH]; intros lead acc Hcs Hlead Hnul.
  - simpl. rewrite !app_nil_r, split_no_sep by done. simpl. unfold add_entry.
    by rewrite strip_spaces.
  - apply Forall_cons in Hcs as [Hc Hcs].
    rewrite !fmap_cons. change (concat (?x :: ?l)) with (x ++ concat l).
    rewrite log_entry_app, split_app_sep.
    + change (fold_left add_entry (?e :: ?es) ?a)
        with (fold_left add_entry es (add_entry a e)).
      rewrite (add_entry_fields _ _ _ _ _ (log_entry_fields _ _ _ _ Hlead Hc)).
      rewrite strip_rstrip, IH; [by rewrite <-app_assoc|done|by repeat constructor|].
      intros [H|H]%elem_of_cons; [done|by apply elem_of_nil in H].
    + destruct Hc as (_ & _ & Hh & Hd & Hb & _).
      rewrite !not_elem_of_app, !not_elem_of_cons, !not_elem_of_app,
        !not_elem_of_cons.
      repeat split; done.
Qed.

(** C5: the records of [get_file_commit_details] are exactly the records
    [hash, date, message] read from the entries of the NUL-separated log
    whose stripped text splits on the bar into three parts, the message
    being the stripped third part (at most three parts are made, so the
    message may contain bars); an entry that splits into fewer than three
    parts adds nothing; and on what [git log] prints for the format
    [%H|%aI|%B%x00] the records carry the hash and the ISO date of each
    commit, in the order of the log. *)
Theorem commit_records (w : world) (file_path : str) :
  let entries := split NUL (git_log w file_path) in
  let records := get_file_commit_details w file_path in
  (∀ r, r ∈ records ↔
        ∃ entry h d m, entry ∈ entries ∧ entry_fields entry h d m ∧
                       r = Commit h d (strip m)) ∧
  (∀ r, r ∈ records →
        (∀ c, head (message r) = Some c → is_space c = false) ∧
        (∀ c, last (message r) = Some c → is_space c = false)) ∧
  (∀ entry, (length (split_max 124 (strip entry) 2) ≤ 3)%nat) ∧
  (∀ acc entry, (length (split_max 124 (strip entry) 2) < 3)%nat →
                add_entry acc entry = acc) ∧
  (∀ cs, git_log w file_path = concat (log_entry <$> cs) →
         Forall log_fields_ok cs →
         records = log_commit <$> cs).
Proof.
  intros entries records. unfold records, get_file_commit_details, parse_log.
  assert (Hiff : ∀ r, r ∈ fold_left add_entry entries [] ↔
        ∃ entry h d m, entry ∈ entries ∧ entry_fields entry h d m ∧
                       r = Commit h d (strip m)).
  { intros r. rewrite fold_add_entry. split; [|by right].
    by intros [[]%elem_of_nil|H]. }
  split; [exact Hiff|]. split; [|split; [|split]].
  - intros r (entry & h & d & m & _ & _ & ->)%Hiff. apply strip_ends.
  - intros entry. apply split_max_length.
  - intros acc entry Hlen. unfold add_entry.
    destruct (strip entry); [done|]. case_bool_decide; [lia|done].
  - intros cs Hlog Hcs. unfold entries. rewrite Hlog.
    apply (parse_log_entries cs [] []); [done|constructor|apply not_elem_of_nil].
Qed.


(** ** extract_description *)

Lemma match_at_sound pat s m :
  match_at pat s = Some m → s = m_whole m ++ m_rest m.
Proof.
  unfold match_at. destruct (match_items _ s) as [[ps t]|] eqn:E; [|done].
  intros [= <-]. simpl. by apply match_items_sound in E as [_ ->].
Qed.

Lemma re_search_none pat s :
  re_search pat s = None → ∀ pre t, s = pre ++ t → match_at pat t = None.
Proof.
  induction s as [|c s IH]; simpl.
  - destruct (match_at pat []) eqn:E; [done|]. intros _ pre t Heq.
    symmetry in Heq. by apply app_eq_nil in Heq as [-> ->].
  - destruct (match_at pat (c :: s)) eqn:E; [done|]. intros Hs pre t Heq.
    destruct pre as [|x pre]; simpl in Heq; [by subst|].
    injection Heq as -> ->. by eapply IH.
Qed.

Lemma re_search_first pat s m :
  re_search pat s = Some m →
  ∃ pre, s = pre ++ m_whole m ++ m_rest m ∧
         match_at pat (m_whole m ++ m_rest m) = Some m ∧
         no_match_before pat pre (m_whole m ++ m_rest m).
Proof.
  induction s as [|c s IH]; simpl.
  - destruct (match_at pat []) eqn:E; [|done]. intros [= ->]. exists [].
    rewrite <-(match_at_sound _ _ _ E). split; [done|]. split; [done|].
    by intros [|? ?] [|? ?].
  - destruct (match_at pat (c :: s)) eqn:E.
    + intros [= ->]. exists []. rewrite <-(match_at_sound _ _ _ E).
      split; [done|]. split; [done|]. by intros [|? ?] [|? ?].
    + intros (pre & -> & Hm & Hno)%IH. exists (c :: pre).
      split; [done|]. split; [done|].
      intros [|x pre1] t Heq Ht; simpl in Heq.
      * by subst t.
      * injection Heq as -> ->. by apply (Hno pre1).
Qed.

Lemma p_pattern_shape s m :
  match_at p_pattern s = Some m →
  ∃ front x, m_whole m = front ++ m_group m ++ py "</" ++ [x] ++ py ">" ∧
             ci_eq 112 x = true ∧ m_group m ≠ [] ∧ (60 ∉ m_group m).
Proof.
  intros (ps1 & ps2 & ps3 & _ & H2 & H3 & Hw & Hg & _)%match_at_parts.
  rewrite Hw, Hg. unfold p_pattern in H2, H3. py_eval. simpl in H2, H3.
  break_pieces. subst. simpl. rewrite !app_nil_r.
  eexists _, _. split; [done|]. split; [done|].
  split; [by intros ->; simpl in *; lia|].
  intros Hin.
  match goal with H : Forall _ _ |- _ => rewrite Forall_forall in H; by apply H in Hin end.
Qed.

Lemma meta_pattern_quotes s m :
  match_at meta_pattern s = Some m →
  ∃ front qo qc, m_whole m = front ++ [qo] ++ m_group m ++ [qc] ∧
                 quote qo = true ∧ quote qc = true ∧
                 Forall (λ c, quote c = false) (m_group m).
Proof.
  intros (ps1 & ps2 & ps3 & H1 & H2 & H3 & Hw & Hg & _)%match_at_parts.
  rewrite Hw, Hg. unfold meta_pattern in H1, H2, H3. py_eval.
  simpl in H1, H2, H3. break_pieces. subst.
  match goal with
  | |- ∃ front qo qc, concat ?ps ++ _ = _ ∧ _ =>
      exists (concat (removelast ps)), (hd 0 (List.last ps [])); eexists
  end.
  split; [|split; [|split]].
  - simpl. rewrite !app_nil_r. repeat (rewrite <-app_assoc; simpl). reflexivity.
  - done.
  - simpl. eassumption.
  - simpl. rewrite app_nil_r.
    eapply Forall_impl; [eassumption|]. by intros ? ?%negb_true_iff.
Qed.

Lemma re_search_here pat s m :
  match_at pat s = Some m → re_search pat s = Some m.
Proof. intros H. destruct s; simpl; by rewrite H. Qed.

Lemma re_search_app pat pre s :
  no_match_before pat pre s → re_search pat (pre ++ s) = re_search pat s.
Proof.
  induction pre as [|c pre IH]; intros Hno; [done|].
  assert (H0 : match_at pat (c :: pre ++ s) = None)
    by by apply (Hno [] (c :: pre)).
  simpl. rewrite H0.
  apply IH. intros pre1 t -> Ht. by apply (Hno (c :: pre1)).
Qed.

Lemma match_items_one p its c s :
  p c = true → match_items (One p :: its) (c :: s) = push [c] (match_items its s).
Proof. intros H. simpl. by rewrite H. Qed.

Lemma match_items_many_one p its c d s :
  p c = true → p d = false →
  match_items (Many 1 p :: its) (c :: d :: s)
  = push [c] (match_items its (d :: s)).
Proof.
  intros Hc Hd. simpl. rewrite Hc, Hd.
  by destruct (match_items its (d :: s)) as [[ps t]|].
Qed.

Lemma match_items_many least p its s :
  match_items (Many least p :: its) s =
  match many p least (match_items its) s with
  | Some (m, (ps, t)) => Some (m :: ps, t)
  | None => None
  end.
Proof. done. Qed.

Lemma many_take p k v c s r least :
  Forall (λ x, p x = true) v → (least ≤ length v)%nat → p c = false →
  k (c :: s) = Some r → many p least k (v ++ c :: s) = Some (v, r).
Proof.
  intros Hv. revert least. induction Hv as [|x v Hx _ IH]; intros least Hlen Hc Hk.
  - simpl in *. destruct least; [|lia]. by rewrite Hc, Hk.
  - simpl. rewrite Hx, IH; [done|simpl in Hlen; lia|done..].
Qed.

(** The meta pattern matches a meta description tag whose content holds
    no quote of either kind, and captures the content. *)
Lemma meta_tag_match qn q v rest :
  (∀ c, 97 ≤ c ≤ 122 → ci_eq c c = true) →
  quote qn = true → quote q = true → v ≠ [] →
  Forall (λ c, quote c = false) v →
  match_at meta_pattern (meta_tag qn q v ++ rest)
  = Some (Match (meta_tag qn q v) v rest).
Proof.
  intros Hci Hqn Hq Hne Hv.
  assert (Hlen : (1 ≤ length v)%nat) by (destruct v; [done|simpl; lia]).
  unfold match_at, meta_pattern, meta_tag. cbn [before group after].
  py_eval. rewrite <-!app_assoc.
  cbn [lits lits_i map app length]. unfold lit, lit_i.
  repeat first
    [ rewrite (match_items_one (N.eqb _)) by apply N.eqb_refl
    | rewrite (match_items_one (ci_eq _)) by (apply Hci; lia)
    | rewrite (match_items_one quote) by done
    | rewrite (match_items_many_one is_space) by done ].
  rewrite match_items_many.
  rewrite (many_take _ _ v q rest ([[q]], rest));
    [|eapply Forall_impl; [exact Hv|]; by intros ? ->|done|by rewrite Hq
     |by rewrite (match_items_one quote) by done].
  cbn [push concat take drop app]. by rewrite !app_nil_r.
Qed.

(** C9, as the code has it: [extract_description] always returns a
    string.  When the file is read and the meta description pattern
    matches somewhere, the leftmost match ends with an opening quote, the
    captured text without quote of either kind, and a closing quote; when
    the two quotes are the same character the result is the captured
    text, stripped of surrounding white space.  So where the first match
    is a meta description tag whose content holds no quote character, the
    result is that content, stripped.  Otherwise, when the paragraph
    pattern matches, it is the stripped text of the leftmost paragraph cut
    to 200 characters, so its length is at most 200; otherwise, and when
    the file cannot be read, it is the empty string. *)
Theorem extract_description_cases (w : world) (html_path : str) :
  (read_text w html_path = None → extract_description w html_path = []) ∧
  (∀ content, read_text w html_path = Some content →
     (∀ m, re_search meta_pattern content = Some m →
           ∃ pre front qo qc,
             content = pre ++ (front ++ [qo] ++ m_group m ++ [qc]) ++ m_rest m ∧
             match_at meta_pattern (m_whole m ++ m_rest m) = Some m ∧
             no_match_before meta_pattern pre (m_whole m ++ m_rest m) ∧
             quote qo = true ∧ quote qc = true ∧
             Forall (λ c, quote c = false) (m_group m) ∧
             (qo = qc → extract_description w html_path = strip (m_group m))) ∧
     (∀ pre qn q v rest,
        (∀ c, 97 ≤ c ≤ 122 → ci_eq c c = true) →
        content = pre ++ meta_tag qn q v ++ rest →
        no_match_before meta_pattern pre (meta_tag qn q v ++ rest) →
        quote qn = true → quote q = true → v ≠ [] →
        Forall (λ c, quote c = false) v →
        extract_description w html_path = strip v) ∧
     (re_search meta_pattern content = None →
        (∀ pre t, content = pre ++ t → match_at meta_pattern t = None) ∧
        (∀ m, re_search p_pattern content = Some m →
              extract_description w html_path = take 200 (strip (m_group m)) ∧
              (length (extract_description w html_path) ≤ 200)%nat ∧
              ∃ pre front x,
                content = pre ++ (front ++ m_group m ++ py "</" ++ [x] ++ py ">")
                              ++ m_rest m ∧
                match_at p_pattern (m_whole m ++ m_rest m) = Some m ∧
                no_match_before p_pattern pre (m_whole m ++ m_rest m) ∧
                ci_eq 112 x = true ∧ (60 ∉ m_group m)) ∧
        (re_search p_pattern content = None →
           extract_description w html_path = [] ∧
           ∀ pre t, content = pre ++ t → match_at p_pattern t = None))).
Proof.
  unfold extract_description. split; [by intros ->|].
  intros content ->. split; [|split].
  - intros m Hm. rewrite Hm.
    apply re_search_first in Hm as (pre & -> & Hat & Hno).
    destruct (meta_pattern_quotes _ _ Hat) as (front & qo & qc & Hw & Hqo & Hqc & Hg).
    exists pre, front, qo, qc. by rewrite <-Hw.
  - intros pre qn q v rest Hci -> Hno Hqn Hq Hne Hv.
    rewrite (re_search_app _ _ _ Hno).
    by rewrite (re_search_here _ _ _ (meta_tag_match qn q v rest Hci Hqn Hq Hne Hv)).
  - intros Hmeta. rewrite Hmeta. split; [by apply re_search_none|]. split.
    + intros m Hm. rewrite Hm. split; [done|]. split; [rewrite length_take; lia|].
      apply re_search_first in Hm as (pre & -> & Hat & Hno).
      destruct (p_pattern_shape _ _ Hat) as (front & x & Hw & Hx & _ & Hg).
      exists pre, front, x. by rewrite <-Hw.
    + intros Hp. rewrite Hp. split; [done|]. by apply re_search_none.
Qed.


(** ** Sorting *)

Lemma str_ltb_nil_r a : str_ltb a [] = false.
Proof. by destruct a. Qed.

Lemma str_ltb_asym a : ∀ b, str_ltb a b = true → str_ltb b a = false.
Proof.
  induction a as [|x a IH]; intros [|y b]; simpl; try done.
  intros [H|[H1 H2]%andb_true_iff]%orb_true_iff.
  - apply N.ltb_lt in H. apply orb_false_iff. split; [apply N.ltb_ge; lia|].
    apply andb_false_iff. left. apply N.eqb_neq. lia.
  - apply N.eqb_eq in H1 as ->. rewrite N.ltb_irrefl, N.eqb_refl. simpl. by apply IH.
Qed.

Lemma str_ltb_ge_trans a : ∀ b c,
  str_ltb a b = false → str_ltb b c = false → str_ltb a c = false.
Proof.
  induction a as [|x a IH]; intros [|y b] [|z c]; simpl; try done.
  intros [H1 H2]%orb_false_iff [H3 H4]%orb_false_iff.
  apply N.ltb_ge in H1, H3. apply orb_false_iff.
  split; [apply N.ltb_ge; lia|].
  destruct (N.eqb_spec x z) as [->|Hne]; [|done]. simpl.
  assert (y = z) as -> by lia. rewrite N.eqb_refl in H2, H4. simpl in *. eauto.
Qed.

Section Sort.
Context {A : Type} (before : A → A → bool).

Lemma insert_by_perm x l : insert_by before x l ≡ₚ x :: l.
Proof.
  induction l as [|y l IH]; simpl; [done|].
  destruct (before y x); [|done]. rewrite IH. apply Permutation_swap.
Qed.

Lemma stable_sort_perm l : stable_sort before l ≡ₚ l.
Proof.
  induction l as [|x l IH]; simpl; [done|].
  unfold stable_sort in *. simpl. by rewrite insert_by_perm, IH.
Qed.

Hypothesis before_asym : ∀ x y, before x y = true → before y x = false.
Hypothesis before_trans : ∀ x y z,
  before y x = false → before z y = false → before z x = false.

Lemma insert_by_sorted x l :
  StronglySorted (λ a b, before b a = false) l →
  StronglySorted (λ a b, before b a = false) (insert_by before x l).
Proof.
  induction 1 as [|y l Hl IH Hy]; simpl; [by repeat constructor|].
  destruct (before y x) eqn:E.
  - constructor; [done|]. rewrite insert_by_perm. constructor; [|done]. eauto.
  - constructor; [by constructor|]. constructor; [done|].
    eapply Forall_impl; [exact Hy|]. simpl. eauto.
Qed.

Lemma stable_sort_sorted l :
  StronglySorted (λ a b, before b a = false) (stable_sort before l).
Proof.
  induction l as [|x l IH]; [constructor|]. by apply insert_by_sorted.
Qed.
End Sort.

(** ** main *)

Lemma elem_of_html_files w f :
  f ∈ html_files w ↔ is_Some (fs w !! f) ∧ ends_with (py ".html") f = true.
Proof using.
  no_tables.
  unfold html_files. rewrite stable_sort_perm, list_elem_of_filter.
  rewrite elem_of_elements, elem_of_dom. tauto.
Qed.

Lemma visit_cases w acc f :
  (visit w acc f = acc ∧
   (generated (basename f) = true ∨ get_file_commit_details w f = [])) ∨
  (visit w acc f = acc ++ [tool_record w f] ∧
   generated (basename f) = false ∧ get_file_commit_details w f ≠ []).
Proof.
  unfold visit, tool_record. destruct (generated (basename f)); [left; auto|].
  destruct (get_file_commit_details w f) eqn:E; [left; auto|right; auto].
Qed.

Lemma fold_visit w t files : ∀ acc,
  t ∈ fold_left (visit w) files acc ↔
  t ∈ acc ∨ ∃ f, f ∈ files ∧ generated (basename f) = false ∧
                 get_file_commit_details w f ≠ [] ∧ t = tool_record w f.
Proof.
  induction files as [|f files IH]; intros acc; simpl.
  - split; [by left|]. intros [H|(f & Hf%elem_of_nil & _)]; done.
  - rewrite IH. split.
    + intros [H|(f' & Hf' & Hg & Hc & ->)].
      * destruct (visit_cases w acc f) as [[Heq _]|(Heq & Hg & Hc)];
          rewrite Heq in H; [by left|].
        apply elem_of_app in H as [H|H%list_elem_of_singleton]; [by left|].
        right. exists f. split; [left|done].
      * right. exists f'. split; [by right|done].
    + intros [H|(f' & Hf' & Hg & Hc & ->)].
      * left. destruct (visit_cases w acc f) as [[Heq _]|(Heq & _)];
          rewrite Heq; [done|]. apply elem_of_app. by left.
      * apply elem_of_cons in Hf' as [->|Hf'].
        -- left. destruct (visit_cases w acc f) as [[_ [Hg'|Hc']]|(Heq & _)];
             [congruence|done|]. rewrite Heq. apply elem_of_app. right. left.
        -- right. by exists f'.
Qed.

Lemma elem_of_gathered w t :
  t ∈ gathered w ↔ ∃ f, has_history w f ∧ t = tool_record w f.
Proof.
  unfold gathered, sort_tools, collect, has_history.
  rewrite stable_sort_perm, fold_visit. split.
  - intros [H%elem_of_nil|(f & ? & ? & ? & ?)]; [done|]. by exists f.
  - intros (f & (? & ? & ?) & ?). right. by exists f.
Qed.

Lemma fold_print lines : ∀ w,
  fold_left (λ w line, print line w) lines w =
  World (fs w) (git_log w) (stdout w ++ lines).
Proof.
  induction lines as [|l lines IH]; intros w; simpl.
  - rewrite app_nil_r. by destruct w.
  - rewrite IH. simpl. by rewrite <-app_assoc.
Qed.

Lemma main_effect w :
  main w = World (<[GATHERED := Text (json_dumps (gathered w))]> (fs w))
                 (git_log w) (stdout w ++ summary (gathered w)).
Proof. unfold main. by rewrite fold_print. Qed.

(** C1: in every record that the gather step produces from a non-empty
    list of commits, [created] is the date of the last commit of the list
    and [updated] the date of the first. *)
Theorem created_updated_dates (w : world) (t : tool) :
  t ∈ gathered w → commits t ≠ [] →
  ∃ newest oldest,
    head (commits t) = Some newest ∧ last (commits t) = Some oldest ∧
    created t = Some (date oldest) ∧ updated t = Some (date newest).
Proof.
  intros (f & _ & ->)%elem_of_gathered. simpl. intros Hne.
  destruct (get_file_commit_details w f) as [|c cs] eqn:E; [done|].
  destruct (last (c :: cs)) as [o|] eqn:Hlast.
  - by exists c, o.
  - by apply last_None in Hlast.
Qed.

(** C4: the [urls] of every record of the gather step hold no entry twice;
    they are the URLs extracted from the messages of the commits of the
    record. *)
Theorem urls_deduplicated (w : world) (t : tool) :
  t ∈ gathered w →
  NoDup (urls t) ∧
  ∀ u, u ∈ urls t ↔ ∃ c, c ∈ commits t ∧ u ∈ extract_urls (message c).
Proof.
  intros (f & _ & ->)%elem_of_gathered. simpl. unfold list_set. split.
  - apply NoDup_elements.
  - intros u. rewrite elem_of_elements, elem_of_list_to_set.
    rewrite list_elem_of_In, in_flat_map. split.
    + intros (c & Hc & Hu). exists c. by rewrite !list_elem_of_In.
    + intros (c & Hc & Hu). exists c. by rewrite <-!list_elem_of_In.
Qed.

(** C8: the records of the gather step are those collected from the files,
    ordered by descending [updated] under the comparison of strings; a
    missing [updated] counts as the empty string, below which there is no
    string, so that such a record is followed only by records whose key is
    empty as well. *)
Theorem gathered_sorted (w : world) :
  gathered w ≡ₚ collect w ∧
  StronglySorted (λ a b, str_ltb (sort_key a) (sort_key b) = false) (gathered w) ∧
  (∀ t, updated t = None → sort_key t = []) ∧
  (∀ i j a b, gathered w !! i = Some a → gathered w !! j = Some b →
              (i < j)%nat → sort_key a = [] → sort_key b = []).
Proof.
  assert (Hsorted : StronglySorted
            (λ a b, str_ltb (sort_key a) (sort_key b) = false) (gathered w)).
  { apply (stable_sort_sorted (λ y x, str_ltb (sort_key x) (sort_key y))).
    - intros x y. apply str_ltb_asym.
    - intros x y z. apply str_ltb_ge_trans. }
  split; [apply stable_sort_perm|]. split; [done|]. split.
  - intros t Ht. unfold sort_key. by rewrite Ht.
  - revert Hsorted. generalize (gathered w). intros l Hl.
    induction Hl as [|x l Hl IH Hx]; intros i j a b Hi Hj Hij Ha; [done|].
    destruct j as [|j]; [lia|]. simpl in Hj. destruct i as [|i].
    + injection Hi as ->. rewrite Forall_forall in Hx.
      specialize (Hx b (list_elem_of_lookup_2 _ _ _ Hj)).
      rewrite Ha in Hx. by destruct (sort_key b).
    + simpl in Hi. eapply (IH i j); eauto. lia.
Qed.

(** C3, as the code has it: a file without commit history is passed over
    and the loop goes on.  The records are exactly those of the scanned
    files that have history, a file without history has no record, and
    whatever the histories are the gather step writes the intermediate file
    and prints nothing but its summary. *)
Theorem gather_skips_without_history (w : world) :
  (∀ t, t ∈ gathered w ↔ ∃ f, has_history w f ∧ t = tool_record w f) ∧
  (∀ f, get_file_commit_details w f = [] → ∀ t, t ∈ gathered w → file t ≠ f) ∧
  fs (main w) = <[GATHERED := Text (json_dumps (gathered w))]> (fs w) ∧
  stdout (main w) = stdout w ++ summary (gathered w).
Proof.
  split; [apply elem_of_gathered|]. split.
  - intros f Hf t (f' & (_ & _ & Hc) & ->)%elem_of_gathered. simpl.
    by intros ->.
  - by rewrite main_effect.
Qed.


(** ** The build steps *)

Lemma output_names_differ : GATHERED ≠ INDEX ∧ GATHERED ≠ COLOPHON ∧ INDEX ≠ COLOPHON.
Proof. by vm_compute. Qed.

(** C2: when [gathered_links.json] is missing, [build_index] and
    [build_colophon] print the message and return; the working directory is
    left as it was, so neither page is written and a page that was there
    stays unchanged. *)
Theorem build_without_gathered (w : world) :
  fs w !! GATHERED = None →
  build_index w = Returned (print NOT_FOUND w) ∧
  build_colophon w = Returned (print NOT_FOUND w) ∧
  fs (print NOT_FOUND w) = fs w ∧
  stdout (print NOT_FOUND w) = stdout w ++ [NOT_FOUND] ∧
  fs (print NOT_FOUND w) !! INDEX = fs w !! INDEX ∧
  fs (print NOT_FOUND w) !! COLOPHON = fs w !! COLOPHON.
Proof.
  intros H. unfold build_index, build_colophon, load_gathered. by rewrite H.
Qed.

Lemma build_index_frame w :
  match build_index w with
  | Returned w' => ∀ p, p ≠ INDEX → fs w' !! p = fs w !! p
  | Raised w' => w' = w
  end.
Proof.
  unfold build_index. destruct (load_gathered w) as [[]|[tools|]]; simpl; [done| |done].
  intros p Hp. by rewrite lookup_insert_ne.
Qed.

Lemma build_colophon_frame w :
  match build_colophon w with
  | Returned w' => ∀ p, p ≠ COLOPHON → fs w' !! p = fs w !! p
  | Raised w' => w' = w
  end.
Proof.
  unfold build_colophon. destruct (load_gathered w) as [[]|[tools|]]; simpl; [done| |done].
  intros p Hp. by rewrite lookup_insert_ne.
Qed.

(** [json.load] gives back what [json.dump] wrote. *)
Hypothesis json_roundtrip : ∀ tools, json_loads (json_dumps tools) = Some tools.

(** C7: a run of the three scripts returns, and the working directory it
    leaves is the one it found with [gathered_links.json], [index.html] and
    [colophon.html] written: these three files are there and every other
    name holds what it held.  Taken alone, each script changes no name but
    its own output. *)
Theorem pipeline_outputs (w : world) :
  (∃ w', pipeline w = Returned w' ∧
         fs w' = <[COLOPHON := Text (colophon_page (gathered w))]>
                   (<[INDEX := Text (index_page (gathered w))]>
                      (<[GATHERED := Text (json_dumps (gathered w))]> (fs w))) ∧
         fs w' !! GATHERED = Some (Text (json_dumps (gathered w))) ∧
         fs w' !! INDEX = Some (Text (index_page (gathered w))) ∧
         fs w' !! COLOPHON = Some (Text (colophon_page (gathered w))) ∧
         ∀ p, p ∉ [GATHERED; INDEX; COLOPHON] → fs w' !! p = fs w !! p) ∧
  (∀ p, p ≠ GATHERED → fs (main w) !! p = fs w !! p) ∧
  (∀ v, match build_index v with
        | Returned v' => ∀ p, p ≠ INDEX → fs v' !! p = fs v !! p
        | Raised v' => v' = v
        end) ∧
  (∀ v, match build_colophon v with
        | Returned v' => ∀ p, p ≠ COLOPHON → fs v' !! p = fs v !! p
        | Raised v' => v' = v
        end).
Proof.
  destruct output_names_differ as (Hgi & Hgc & Hic).
  assert (INDEX ≠ GATHERED ∧ COLOPHON ≠ GATHERED ∧ COLOPHON ≠ INDEX)
    as (Hig & Hcg & Hci) by done.
  split; [|split; [|split; [apply build_index_frame|apply build_colophon_frame]]].
  - unfold pipeline, build_index, build_colophon, load_gathered.
    rewrite main_effect. simpl. rewrite lookup_insert_eq, json_roundtrip. simpl.
    rewrite lookup_insert_ne, lookup_insert_eq, json_roundtrip by done.
    eexists. split; [done|]. simpl. split; [done|].
    split; [by rewrite 2!lookup_insert_ne, lookup_insert_eq by done|].
    split; [by rewrite lookup_insert_ne, lookup_insert_eq by done|].
    split; [by rewrite lookup_insert_eq|].
    intros p Hp. rewrite !not_elem_of_cons in Hp.
    destruct Hp as (? & ? & ? & _). by rewrite !lookup_insert_ne.
  - intros p Hp. rewrite main_effect. simpl. by rewrite lookup_insert_ne.
Qed.


(** ** format_commit_message *)

Lemma tokens_impl (P P' : N → bool) T T' s :
  (∀ c, P c = true → P' c = true) → T ⊆ T' → tokens P T s → tokens P' T' s.
Proof.
  intros HP HT. induction 1 as [|c s Hc _ IH|t s Ht _ IH].
  - constructor.
  - apply tokens_char; auto.
  - apply tokens_piece; auto.
Qed.

Lemma tokens_chars P T g s :
  Forall (λ c, P c = true) g → tokens P T s → tokens P T (g ++ s).
Proof. induction 1; simpl; [done|]. intros. apply tokens_char; auto. Qed.

Lemma tokens_any s : tokens (λ _, true) [] s.
Proof. induction s; [constructor|by apply tokens_char]. Qed.

(** A prefix that holds the first character of no piece is made of single
    characters, and what follows it is made of whole pieces again. *)
Lemma tokens_drop_prefix P T s : tokens P T s → ∀ m rest,
  s = m ++ rest → (∀ c t, c ∈ m → t ∈ T → head t ≠ Some c) → tokens P T rest.
Proof.
  induction 1 as [|c s Hc Hs IH|t s Ht Hs IH]; intros m rest Heq Hm.
  - symmetry in Heq. apply app_eq_nil in Heq as [_ ->]. constructor.
  - destruct m as [|x m]; simpl in Heq.
    + subst. by apply tokens_char.
    + injection Heq as -> ->. eapply IH; [done|].
      intros c t Hc' Ht. apply Hm; [by right|done].
  - destruct m as [|x m]; simpl in Heq.
    + subst. by apply tokens_piece.
    + destruct t as [|y t]; simpl in Heq.
      * eapply (IH (x :: m)); [done|done].
      * injection Heq as -> Heq. exfalso.
        apply (Hm x (x :: t)); [left|done|done].
Qed.

Lemma replace_app old new a b :
  replace old new (a ++ b) = replace old new a ++ replace old new b.
Proof. unfold replace. apply flat_map_app. Qed.

Lemma replace_absent old new t : old ∉ t → replace old new t = t.
Proof.
  induction t as [|c t IH]; [done|]. intros [Hc Ht]%not_elem_of_cons.
  unfold replace in *. simpl. destruct (N.eqb_spec c old); [congruence|].
  simpl. by rewrite IH.
Qed.

Lemma replace_tokens (P P' : N → bool) T T' old new s :
  (∀ t, t ∈ T → old ∉ t) → new ∈ T' → T ⊆ T' →
  (∀ c, P c = true → c ≠ old → P' c = true) →
  tokens P T s → tokens P' T' (replace old new s).
Proof.
  intros Hold Hnew HT HP. induction 1 as [|c s Hc _ IH|t s Ht _ IH].
  - constructor.
  - change (replace old new (c :: s))
      with ((if c =? old then new else [c]) ++ replace old new s).
    destruct (N.eqb_spec c old).
    + by apply tokens_piece.
    + apply tokens_char; auto.
  - rewrite replace_app, replace_absent by auto. apply tokens_piece; auto.
Qed.

Lemma sub_from_skip pat tpl w rest :
  sub_from pat tpl (length w) (w ++ rest) = sub_from pat tpl 0 rest.
Proof.
  induction w as [|c w IH]; [done|]. simpl. exact IH.
Qed.

Lemma sub_from_match pat tpl s m :
  match_at pat s = Some m → m_whole m ≠ [] →
  sub_from pat tpl 0 s = expand tpl (m_group m) ++ sub_from pat tpl 0 (m_rest m).
Proof.
  intros Hm Hne. pose proof (match_at_sound _ _ _ Hm) as Hs.
  destruct s as [|c s]; simpl; rewrite Hm.
  - symmetry in Hs. by apply app_eq_nil in Hs as [? _].
  - f_equal. destruct (m_whole m) as [|x w] eqn:E; [done|].
    simpl in Hs. injection Hs as -> ->. simpl. apply sub_from_skip.
Qed.

Lemma sub_from_char pat tpl c s :
  match_at pat (c :: s) = None →
  sub_from pat tpl 0 (c :: s) = c :: sub_from pat tpl 0 s.
Proof. intros H. simpl. by rewrite H. Qed.

Lemma match_at_first pat p its c s :
  before pat ++ group pat ++ after pat = One p :: its → p c = false →
  match_at pat (c :: s) = None.
Proof. intros Hits Hc. unfold match_at. rewrite Hits. simpl. by rewrite Hc. Qed.

(** [re.sub] on text made of pieces: when no match begins inside a piece and
    the matched text holds the first character of no piece, the text around
    the matches keeps its pieces and every match becomes its replacement. *)
Lemma sub_tokens P T T' pat tpl :
  (∀ t, t ∈ T → t ≠ []) →
  (∀ t rest, t ∈ T →
     sub_from pat tpl 0 (t ++ rest) = t ++ sub_from pat tpl 0 rest) →
  (∀ s m, match_at pat s = Some m →
     m_whole m ≠ [] ∧
     (∀ c t, c ∈ m_whole m → t ∈ T → head t ≠ Some c) ∧
     ∀ x, tokens P T' x → tokens P T' (expand tpl (m_group m) ++ x)) →
  T ⊆ T' →
  ∀ s, tokens P T s → tokens P T' (sub_from pat tpl 0 s).
Proof.
  intros Hne Hin Hmatch HT s.
  remember (length s) as n eqn:Hn. revert s Hn.
  induction n as [n IH] using lt_wf_ind. intros s -> Hs.
  assert (Hsome : ∀ m, match_at pat s = Some m →
                       tokens P T' (sub_from pat tpl 0 s)).
  { intros m Hm. destruct (Hmatch _ _ Hm) as (Hw & Hheads & Hexp).
    rewrite (sub_from_match _ _ _ _ Hm Hw). apply Hexp.
    pose proof (match_at_sound _ _ _ Hm) as Heq.
    eapply IH; [|done|by eapply tokens_drop_prefix].
    rewrite Heq, length_app. destruct (m_whole m); [done|simpl; lia]. }
  destruct Hs as [|c s Hc Hs|t s Ht Hs].
  - destruct (match_at pat []) as [m|] eqn:Hm; [by eapply Hsome|].
    simpl. rewrite Hm. constructor.
  - destruct (match_at pat (c :: s)) as [m|] eqn:Hm; [by eapply Hsome|].
    rewrite sub_from_char by done. apply tokens_char; [done|].
    eapply IH; [|done|done]. simpl. lia.
  - rewrite Hin by done. apply tokens_piece; [by apply HT|].
    eapply IH; [|done|done]. rewrite length_app.
    specialize (Hne _ Ht). destruct t; [done|simpl; lia].
Qed.


(** Closed facts about the literals, by evaluation. *)
Ltac by_compute := compute_done.

Lemma incl_by_forall (T T' : list str) : Forall (λ x, x ∈ T') T → T ⊆ T'.
Proof. intros H x Hx. by apply (proj1 (Forall_forall _ _) H). Qed.

Ltac list_incl := apply incl_by_forall; compute_done.

Lemma special_false c : special c = false ↔ c ≠ 60 ∧ c ≠ 62 ∧ c ≠ 38.
Proof using.
  no_tables.
  unfold special, mem. py_eval. simpl. rewrite !orb_false_iff, !N.eqb_neq. tauto.
Qed.

Lemma html_escape_tokens s : tokens (λ c, negb (special c)) ENTITIES (html_escape s).
Proof.
  unfold html_escape.
  eapply (replace_tokens (λ c, negb (special c)) _
            [py "&amp;"; py "&lt;"; py "&gt;"; py "&quot;"]);
    [apply Forall_forall; by_compute|by_compute|list_incl|by intros|].
  eapply (replace_tokens (λ c, negb (special c)) _ [py "&amp;"; py "&lt;"; py "&gt;"]);
    [apply Forall_forall; by_compute|by_compute|list_incl|by intros|].
  eapply (replace_tokens (λ c, negb (c =? 38) && negb (c =? 60)) _
            [py "&amp;"; py "&lt;"]);
    [apply Forall_forall; by_compute|by_compute|list_incl| |].
  { intros c [H1 H2]%andb_true_iff Hc. apply negb_true_iff, special_false.
    apply negb_true_iff, N.eqb_neq in H1, H2. done. }
  eapply (replace_tokens (λ c, negb (c =? 38)) _ [py "&amp;"]);
    [apply Forall_forall; by_compute|by_compute|list_incl| |].
  { intros c H1 Hc. rewrite H1. by apply negb_true_iff, N.eqb_neq. }
  eapply (replace_tokens (λ _, true) _ []);
    [by intros ? ?%elem_of_nil|by_compute|list_incl| |apply tokens_any].
  intros c _ Hc. by apply negb_true_iff, N.eqb_neq.
Qed.


Lemma expand_anchor a b c g :
  expand [Txt a; Ref1; Txt b; Ref1; Txt c] g = a ++ g ++ b ++ g ++ c.
Proof. unfold expand. simpl. by rewrite app_nil_r. Qed.

Lemma tokens_anchor P T a b c g x :
  a ∈ T → b ∈ T → c ∈ T → Forall (λ c, P c = true) g → tokens P T x →
  tokens P T (expand [Txt a; Ref1; Txt b; Ref1; Txt c] g ++ x).
Proof.
  intros Ha Hb Hc Hg Hx. rewrite expand_anchor, <-!app_assoc.
  apply tokens_piece; [done|]. apply tokens_chars; [done|].
  apply tokens_piece; [done|]. apply tokens_chars; [done|].
  by apply tokens_piece.
Qed.

(** Splits [t ∈ T] for a list [T] of literals into its cases. *)
Ltac each_piece H :=
  match type of H with
  | _ ∈ ?T => let v := eval vm_compute in T in change T with v in H
  end;
  repeat (apply elem_of_cons in H as [->|H]); [..|by apply elem_of_nil in H].

(** Copies the characters of a piece in which no match begins. *)
Ltac copy_piece extra :=
  cbn [app];
  repeat (rewrite sub_from_char
            by first [eapply match_at_first; [reflexivity|reflexivity]|extra]);
  reflexivity.

Lemma link_match s m :
  match_at link_pattern s = Some m →
  m_group m = m_whole m ∧ m_whole m ≠ [] ∧
  Forall (λ c, negb (special c) = true) (m_whole m).
Proof.
  intros (ps1 & ps2 & ps3 & H1 & H2 & H3 & Hw & Hg & _)%match_at_parts.
  rewrite Hw, Hg. unfold link_pattern in H1, H2, H3. py_eval.
  simpl in H1, H2, H3. break_pieces. subst. simpl. rewrite !app_nil_r.
  split; [done|]. split; [done|].
  assert (Hbody : Forall (λ c, negb (special c) = true) l7).
  { eapply Forall_impl; [eassumption|]. intros c Hc. simpl in Hc.
    apply negb_true_iff, orb_false_iff in Hc as [_ Hc].
    apply negb_true_iff. exact Hc. }
  match goal with H : _ ∨ _ |- _ => destruct H as [->|(c & -> & Hc)] end.
  - simpl. by repeat constructor.
  - apply N.eqb_eq in Hc as <-. simpl. by repeat constructor.
Qed.

Lemma link_sub_tokens s :
  tokens (λ c, negb (special c)) ENTITIES s →
  tokens (λ c, negb (special c)) (ENTITIES ++ template_texts link_template)
         (re_sub link_pattern link_template s).
Proof.
  apply sub_tokens.
  - apply Forall_forall. by_compute.
  - intros t rest Ht. each_piece Ht; copy_piece fail.
  - intros s0 m (Hg & Hne & Hall)%link_match. split; [done|]. split.
    + intros c t Hc Ht Hhead. rewrite Forall_forall in Hall.
      apply Hall, negb_true_iff, special_false in Hc as (_ & _ & Hc).
      assert (Forall (λ t, head t = Some 38) ENTITIES) as Hheads by by_compute.
      rewrite Forall_forall in Hheads. apply Hheads in Ht. congruence.
    + intros x Hx. rewrite Hg. apply tokens_anchor; [by_compute..|done|done].
  - list_incl.
Qed.


(** On ASCII the class [\d] is the ten digits. *)
Hypothesis decimal_ascii :
  ∀ c, c < 128 → is_decimal c = (48 <=? c) && (c <=? 57).

Lemma decimal_plain c :
  is_decimal c = true → c ≠ 34 ∧ c ≠ 38 ∧ c ≠ 60 ∧ c ≠ 62.
Proof.
  intros Hc. destruct (N.lt_ge_cases c 128) as [Hlt|Hge]; [|lia].
  rewrite decimal_ascii in Hc by done.
  apply andb_true_iff in Hc as [H1%N.leb_le H2%N.leb_le]. lia.
Qed.

Lemma issue_hash_x s : match_at issue_pattern (35 :: 120 :: s) = None.
Proof.
  unfold match_at, issue_pattern. py_eval. simpl.
  rewrite (decimal_ascii 120) by done. done.
Qed.

Lemma issue_match s m :
  match_at issue_pattern s = Some m →
  m_whole m = 35 :: m_group m ∧ Forall (λ c, is_decimal c = true) (m_group m).
Proof.
  intros (ps1 & ps2 & ps3 & H1 & H2 & H3 & Hw & Hg & _)%match_at_parts.
  rewrite Hw, Hg. unfold issue_pattern in H1, H2, H3. py_eval.
  simpl in H1, H2, H3. break_pieces. subst. simpl. by rewrite !app_nil_r.
Qed.

Lemma issue_sub_tokens s :
  tokens (λ c, negb (special c)) (ENTITIES ++ template_texts link_template) s →
  tokens (λ c, negb (special c))
         ((ENTITIES ++ template_texts link_template) ++ template_texts issue_template)
         (re_sub issue_pattern issue_template s).
Proof.
  apply sub_tokens.
  - apply Forall_forall. by_compute.
  - intros t rest Ht. each_piece Ht; copy_piece ltac:(apply issue_hash_x).
  - intros s0 m [Hw Hall]%issue_match. split; [by rewrite Hw|]. split.
    + intros c t Hc Ht Hhead.
      assert (Forall (λ t, head t ∈ [Some 38; Some 60; Some 34])
                     (ENTITIES ++ template_texts link_template)) as Hheads
        by by_compute.
      rewrite Forall_forall in Hheads. apply Hheads in Ht.
      rewrite Hhead, !elem_of_cons, elem_of_nil in Ht.
      rewrite Hw in Hc. apply elem_of_cons in Hc as [->|Hc].
      * by destruct Ht as [?|[?|[?|?]]].
      * rewrite Forall_forall in Hall. apply Hall, decimal_plain in Hc.
        destruct Ht as [[= ->]|[[= ->]|[[= ->]|[]]]]; lia.
    + intros x Hx. apply tokens_anchor; [by_compute..| |done].
      eapply Forall_impl; [exact Hall|]. intros c Hc%decimal_plain.
      apply negb_true_iff, special_false. lia.
  - list_incl.
Qed.

(** A character that may not stand alone lies in a piece. *)
Lemma tokens_inside P T s : tokens P T s → ∀ pre c post,
  s = pre ++ c :: post → P c = false →
  ∃ t a b pre' post', t ∈ T ∧ t = a ++ c :: b ∧ pre = pre' ++ a ∧ post = b ++ post'.
Proof.
  induction 1 as [|x s Hx Hs IH|t s Ht Hs IH]; intros pre c post Heq Hc.
  - by destruct pre.
  - destruct pre as [|y pre]; simpl in Heq; injection Heq as -> ->; [congruence|].
    destruct (IH _ _ _ eq_refl Hc) as (t & a & b & pre' & post' & ? & ? & -> & ?).
    by exists t, a, b, (y :: pre'), post'.
  - apply app_eq_inv in Heq as [(k & -> & Hk)|(k & -> & ->)].
    + destruct k as [|y k]; simpl in Hk.
      * destruct (IH [] c post (eq_sym Hk) Hc)
          as (t' & a & b & pre' & post' & ? & ? & Hpre & ?).
        symmetry in Hpre. apply app_eq_nil in Hpre as [-> ->].
        exists t', [], b, pre, post'. by rewrite app_nil_r.
      * injection Hk as <- ->. by exists (pre ++ c :: k), pre, k, [], s.
    + destruct (IH _ _ _ eq_refl Hc) as (t' & a & b & pre' & post' & ? & ? & -> & ?).
      exists t', a, b, (t ++ pre'), post'. by rewrite <-app_assoc.
Qed.

Lemma replace_cons old new c s :
  replace old new (c :: s) = (if c =? old then new else [c]) ++ replace old new s.
Proof. done. Qed.

(** The five replacements of [html.escape], done one after the other on
    the whole text, come to escaping each character on its own: an entity
    written by an earlier replacement is not touched by a later one. *)
Lemma html_escape_chars s : html_escape s = flat_map escape_char s.
Proof.
  induction s as [|c s IH]; [done|].
  change (flat_map escape_char (c :: s))
    with (escape_char c ++ flat_map escape_char s).
  rewrite <-IH. unfold html_escape, escape_char.
  rewrite replace_cons.
  destruct (N.eqb_spec c 38) as [->|H38];
    [by rewrite !replace_app|].
  rewrite !replace_app. rewrite (replace_cons 60 _ c).
  destruct (N.eqb_spec c 60) as [->|H60];
    [by rewrite !replace_app|].
  rewrite !replace_app. rewrite (replace_cons 62 _ c).
  destruct (N.eqb_spec c 62) as [->|H62];
    [by rewrite !replace_app|].
  rewrite !replace_app. rewrite (replace_cons DQUOTE _ c).
  destruct (N.eqb_spec c DQUOTE) as [->|H34];
    [by rewrite !replace_app|].
  rewrite !replace_app. rewrite (replace_cons SQUOTE _ c).
  by destruct (N.eqb_spec c SQUOTE) as [->|H39].
Qed.

Lemma replace_sublist old new s :
  [old] `sublist_of` new → s `sublist_of` replace old new s.
Proof.
  intros Hnew. induction s as [|c s IH]; [done|].
  rewrite replace_cons. change (c :: s) with ([c] ++ s).
  apply sublist_app; [|done]. by destruct (N.eqb_spec c old) as [->|?].
Qed.

(** [re.sub] drops nothing when every match is kept in its replacement. *)
Lemma sub_from_sublist pat tpl :
  (∀ s m, match_at pat s = Some m →
          m_whole m `sublist_of` expand tpl (m_group m)) →
  ∀ s, s `sublist_of` sub_from pat tpl 0 s.
Proof.
  intros Hkeep s. remember (length s) as n eqn:Hn. revert s Hn.
  induction n as [n IH] using lt_wf_ind. intros s ->.
  destruct (match_at pat s) as [m|] eqn:Hm.
  - pose proof (match_at_sound _ _ _ Hm) as Hs.
    pose proof (Hkeep _ _ Hm) as Hk.
    destruct (m_whole m) as [|x wh] eqn:Hw.
    + destruct s as [|c s]; [apply sublist_nil_l|].
      simpl. rewrite Hm, Hw. apply sublist_inserts_l. simpl. apply sublist_skip.
      eapply IH; [|done]. simpl. lia.
    + rewrite (sub_from_match _ _ _ _ Hm) by by rewrite Hw.
      rewrite Hs at 1. apply sublist_app; [done|].
      eapply IH; [|done]. rewrite Hs, length_app. simpl. lia.
  - destruct s as [|c s]; [apply sublist_nil_l|].
    rewrite sub_from_char by done. apply sublist_skip.
    eapply IH; [|done]. simpl. lia.
Qed.

Lemma format_keeps_escaped message :
  html_escape message `sublist_of` format_commit_message message.
Proof.
  unfold format_commit_message, re_sub.
  etrans; [|apply replace_sublist].
  - etrans; [apply (sub_from_sublist link_pattern link_template)|
             apply (sub_from_sublist issue_pattern issue_template)].
    + intros s m (Hg & _ & _)%link_match. rewrite Hg.
      unfold link_template. rewrite expand_anchor.
      apply sublist_inserts_l, sublist_inserts_r. done.
    + intros s m [Hw _]%issue_match. rewrite Hw.
      unfold issue_template. rewrite expand_anchor.
      apply sublist_inserts_l, sublist_inserts_l.
      change (([DQUOTE] ++ py ">#") ++ m_group m ++ py "</a>")
        with ([DQUOTE; 62] ++ (35 :: m_group m) ++ py "</a>").
      apply sublist_inserts_l, sublist_inserts_r. done.
  - apply sublist_inserts_l. done.
Qed.

(** C10: [format_commit_message] escapes the message before it linkifies:
    it turns every [&], [<], [>] and quote of the message into its entity,
    character by character, and linkifies the escaped text.  The escaped
    message is kept in the result, in order, with text only put in; and
    the result is made of characters other than [<], [>] and [&], of the
    entities that [html.escape] writes, and of the literal text of the two
    anchor templates and of the break put before a line end.  So every
    [<], [>] or [&] of the result lies in an occurrence of an entity or of
    inserted markup, and none is a character of the message left as it
    was. *)
Theorem format_commit_message_markup (message : str) :
  html_escape message = flat_map escape_char message ∧
  format_commit_message message =
    replace LF (py "<br>" ++ [LF])
      (re_sub issue_pattern issue_template
         (re_sub link_pattern link_template (flat_map escape_char message))) ∧
  flat_map escape_char message `sublist_of` format_commit_message message ∧
  markup (format_commit_message message) ∧
  ∀ pre c post,
    format_commit_message message = pre ++ c :: post → special c = true →
    ∃ t a b pre' post',
      t ∈ ENTITIES ++ INSERTED ∧ t = a ++ c :: b ∧
      pre = pre' ++ a ∧ post = b ++ post'.
Proof.
  split; [apply html_escape_chars|].
  split; [by rewrite <-html_escape_chars|].
  split; [rewrite <-html_escape_chars; apply format_keeps_escaped|].
  assert (Hm : markup (format_commit_message message)).
  { unfold markup, format_commit_message.
    eapply replace_tokens;
      [| | |by intros c Hc _; exact Hc
       |apply issue_sub_tokens, link_sub_tokens, html_escape_tokens].
    - apply Forall_forall. by_compute.
    - by_compute.
    - list_incl. }
  split; [done|]. intros pre c post Heq Hc.
  eapply tokens_inside; [exact Hm|exact Heq|]. simpl. by rewrite Hc.
Qed.

(** * Further properties *)

(** ** The records of the gather step *)

Lemma str_ltb_antisym a : ∀ b,
  str_ltb a b = false → str_ltb b a = false → a = b.
Proof.
  induction a as [|x a IH]; intros [|y b]; simpl; try done.
  intros [H1 H2]%orb_false_iff [H3 H4]%orb_false_iff.
  apply N.ltb_ge in H1, H3. assert (x = y) as -> by lia.
  rewrite N.eqb_refl in H2, H4. simpl in *. f_equal. by apply IH.
Qed.

Lemma fold_visit_eq w files : ∀ acc,
  fold_left (visit w) files acc =
  acc ++ (tool_record w <$> filter (λ f, recorded w f = true) files).
Proof.
  induction files as [|f files IH]; intros acc; simpl.
  - by rewrite app_nil_r.
  - rewrite IH, filter_cons.
    destruct (visit_cases w acc f) as [[-> Hno]|(-> & Hg & Hc)].
    + rewrite decide_False; [done|]. unfold recorded.
      destruct Hno as [-> | ->]; [done|]. by rewrite andb_false_r.
    + rewrite decide_True; [by rewrite fmap_cons, <-app_assoc|].
      unfold recorded. rewrite Hg.
      by destruct (get_file_commit_details w f).
Qed.

Lemma collect_eq w :
  collect w = tool_record w <$> filter (λ f, recorded w f = true) (html_files w).
Proof. unfold collect. by rewrite fold_visit_eq. Qed.

Lemma collect_files w :
  file <$> collect w = filter (λ f, recorded w f = true) (html_files w).
Proof.
  rewrite collect_eq, <-list_fmap_compose.
  induction (filter _ (html_files w)) as [|f l IH]; [done|].
  rewrite fmap_cons. simpl. by rewrite IH.
Qed.

Lemma html_files_sorted w :
  StronglySorted (λ a b, str_ltb b a = false) (html_files w).
Proof.
  apply (stable_sort_sorted str_ltb).
  - apply str_ltb_asym.
  - intros x y z H1 H2. by eapply str_ltb_ge_trans.
Qed.

Lemma html_files_nodup w : NoDup (html_files w).
Proof.
  unfold html_files. rewrite stable_sort_perm.
  apply NoDup_filter, NoDup_elements.
Qed.

Lemma filter_sorted {A} (R : A → A → Prop) (P : A → Prop)
    `{∀ x, Decision (P x)} l :
  StronglySorted R l → StronglySorted R (filter P l).
Proof.
  induction 1 as [|x l Hl IH Hx]; [constructor|].
  rewrite filter_cons. destruct (decide (P x)); [|done].
  constructor; [done|]. rewrite Forall_forall in Hx |- *.
  intros y [_ Hy]%list_elem_of_filter. by apply Hx.
Qed.

(** X1: every record of the gather step has commits, those parsed from the
    log of its file, and so a [created] and an [updated] date: the branches
    of [main] that would store a missing date are never taken. *)
Theorem gathered_records_dated (w : world) (t : tool) :
  t ∈ gathered w →
  commits t = get_file_commit_details w (file t) ∧ commits t ≠ [] ∧
  is_Some (created t) ∧ is_Some (updated t).
Proof.
  intros (f & (_ & _ & Hc) & ->)%elem_of_gathered. simpl.
  split; [done|]. split; [done|].
  destruct (get_file_commit_details w f) as [|c cs] eqn:E; [done|].
  split; [|by eexists]. destruct (last (c :: cs)) eqn:Hl; [by eexists|].
  by apply last_None in Hl.
Qed.

Lemma collect_in_file_order_aux w :
  StronglySorted (λ a b, str_ltb a b = true) (file <$> collect w).
Proof.
  rewrite collect_files.
  assert (Hs : StronglySorted (λ a b, str_ltb b a = false)
                 (filter (λ f, recorded w f = true) (html_files w)))
    by apply filter_sorted, html_files_sorted.
  assert (Hn : NoDup (filter (λ f, recorded w f = true) (html_files w)))
    by apply NoDup_filter, html_files_nodup.
  revert Hs Hn. generalize (filter (λ f, recorded w f = true) (html_files w)).
  intros l Hs. induction Hs as [|x l Hl IH Hx]; intros Hn; [constructor|].
  apply NoDup_cons in Hn as [Hx' Hn]. constructor; [by apply IH|].
  rewrite Forall_forall in Hx |- *. intros y Hy.
  destruct (str_ltb x y) eqn:E; [done|]. exfalso. apply Hx'.
  by rewrite (str_ltb_antisym x y E (Hx y Hy)).
Qed.

(** X2: before they are sorted by date the records stand in the ascending
    order of the file names, one for each scanned file that is not a
    generated page and has commits; so the gather step reports as many
    tools as there are such files. *)
Theorem collect_in_file_order (w : world) :
  collect w = tool_record w <$> filter (λ f, recorded w f = true) (html_files w) ∧
  StronglySorted (λ a b, str_ltb a b = true) (file <$> collect w) ∧
  length (gathered w) = length (filter (λ f, recorded w f = true) (html_files w)).
Proof.
  split; [apply collect_eq|]. split; [apply collect_in_file_order_aux|].
  - unfold gathered, sort_tools. rewrite stable_sort_perm, collect_eq.
    by rewrite length_fmap.
Qed.

(** X3: no file has two records; the file of a record is in the directory,
    ends in [.html] and is none of the generated pages, whatever history
    these have; and the slug of the record is the stem of the file name. *)
Theorem gathered_one_record_per_file (w : world) :
  NoDup (file <$> gathered w) ∧
  ∀ t, t ∈ gathered w →
       is_Some (fs w !! file t) ∧ ends_with (py ".html") (file t) = true ∧
       (basename (file t) ∉ [INDEX; COLOPHON; py "by-month.html"]) ∧
       slug t = stem (file t).
Proof.
  split.
  - assert (Hp : file <$> gathered w ≡ₚ file <$> collect w).
    { apply fmap_Permutation. apply stable_sort_perm. }
    rewrite Hp, collect_files. apply NoDup_filter, html_files_nodup.
  - intros t (f & (Hf & Hg & _) & ->)%elem_of_gathered. simpl.
    apply elem_of_html_files in Hf as [Hin Hext].
    split; [done|]. split; [done|]. split; [|done].
    unfold generated in Hg. by apply bool_decide_eq_false in Hg.
Qed.

Lemma tool_record_ext w w' f :
  git_log w' = git_log w → fs w' !! f = fs w !! f →
  tool_record w' f = tool_record w f.
Proof.
  intros Hgit Hfs.
  unfold tool_record, extract_title, extract_description, read_text,
    get_file_commit_details.
  by rewrite Hgit, Hfs.
Qed.

Lemma recorded_ext w w' f : git_log w' = git_log w → recorded w' f = recorded w f.
Proof. intros Hgit. unfold recorded, get_file_commit_details. by rewrite Hgit. Qed.

Lemma recorded_not_generated w f :
  recorded w f = true → generated (basename f) = false.
Proof. unfold recorded. by intros [H%negb_true_iff _]%andb_true_iff. Qed.

Lemma collect_ext w w' :
  git_log w' = git_log w →
  (∀ p, ends_with (py ".html") p = true → generated (basename p) = false →
        fs w' !! p = fs w !! p) →
  collect w' = collect w.
Proof.
  intros Hgit Hfs. rewrite !collect_eq.
  assert (Hfiles : filter (λ f, recorded w' f = true) (html_files w') =
                   filter (λ f, recorded w f = true) (html_files w)).
  { apply (StronglySorted_unique_strong (λ a b, str_ltb b a = false)).
    - intros x y _ _ H1 H2. by apply str_ltb_antisym.
    - apply filter_sorted, html_files_sorted.
    - apply filter_sorted, html_files_sorted.
    - apply NoDup_Permutation; [apply NoDup_filter, html_files_nodup..|].
      intros f. rewrite !list_elem_of_filter, !elem_of_html_files.
      rewrite (recorded_ext w w') by done. split.
      + intros (Hr & Hin & Hext). split; [done|]. split; [|done].
        rewrite <-Hfs; [done|done|by eapply recorded_not_generated].
      + intros (Hr & Hin & Hext). split; [done|]. split; [|done].
        rewrite Hfs; [done|done|by eapply recorded_not_generated]. }
  rewrite Hfiles. apply list_fmap_ext. intros i f Hf.
  apply list_elem_of_lookup_2, list_elem_of_filter in Hf as [Hr Hf].
  apply elem_of_html_files in Hf as [_ Hext]. apply tool_record_ext; [done|].
  apply Hfs; [done|by eapply recorded_not_generated].
Qed.

Lemma set_order_list_set : set_order list_set.
Proof.
  intros l. unfold list_set. split; [apply NoDup_elements|].
  intros x. by rewrite elem_of_elements, elem_of_list_to_set.
Qed.

Lemma set_order_perm o o' l : set_order o → set_order o' → o l ≡ₚ o' l.
Proof.
  intros Ho Ho'. destruct (Ho l) as [Hn Hin], (Ho' l) as [Hn' Hin'].
  apply NoDup_Permutation; [done..|]. intros x. by rewrite Hin, Hin'.
Qed.

Lemma same_record_trans a b c :
  same_record a b → same_record b c → same_record a c.
Proof.
  unfold same_record. intros (? & ? & ? & ? & ? & Hu & ? & ?)
                             (? & ? & ? & ? & ? & Hu' & ? & ?).
  repeat split; try congruence. by rewrite Hu.
Qed.

Lemma same_record_sort_key a b : same_record a b → sort_key a = sort_key b.
Proof. unfold sort_key. by intros (_ & _ & _ & _ & _ & _ & _ & ->). Qed.

Lemma tool_record_orders o o' w f :
  set_order o → set_order o' →
  same_record (tool_record_in o w f) (tool_record_in o' w f).
Proof.
  intros Ho Ho'. unfold same_record, tool_record_in. simpl.
  repeat split; try done. by apply set_order_perm.
Qed.

Lemma visit_in_cases o w acc f :
  (visit_in o w acc f = acc ∧
   (generated (basename f) = true ∨ get_file_commit_details w f = [])) ∨
  (visit_in o w acc f = acc ++ [tool_record_in o w f] ∧
   generated (basename f) = false ∧ get_file_commit_details w f ≠ []).
Proof.
  unfold visit_in, tool_record_in. destruct (generated (basename f)); [left; auto|].
  destruct (get_file_commit_details w f) eqn:E; [left; auto|right; auto].
Qed.

Lemma fold_visit_in_eq o w files : ∀ acc,
  fold_left (visit_in o w) files acc =
  acc ++ (tool_record_in o w <$> filter (λ f, recorded w f = true) files).
Proof.
  induction files as [|f files IH]; intros acc; simpl.
  - by rewrite app_nil_r.
  - rewrite IH, filter_cons.
    destruct (visit_in_cases o w acc f) as [[-> Hno]|(-> & Hg & Hc)].
    + rewrite decide_False; [done|]. unfold recorded.
      destruct Hno as [-> | ->]; [done|]. by rewrite andb_false_r.
    + rewrite decide_True; [by rewrite fmap_cons, <-app_assoc|].
      unfold recorded. rewrite Hg.
      by destruct (get_file_commit_details w f).
Qed.

Lemma collect_in_eq o w :
  collect_in o w =
  tool_record_in o w <$> filter (λ f, recorded w f = true) (html_files w).
Proof. unfold collect_in. by rewrite fold_visit_in_eq. Qed.

Lemma insert_by_same {A} (before : A → A → bool) (R : A → A → Prop) x y l k :
  (∀ a a' b b', R a a' → R b b' → before a b = before a' b') →
  R x y → Forall2 R l k →
  Forall2 R (insert_by before x l) (insert_by before y k).
Proof.
  intros Hb Hxy Hlk. induction Hlk as [|a a' l k Ha Hlk IH]; simpl.
  - by repeat constructor.
  - rewrite (Hb a a' x y) by done.
    destruct (before a' y); by repeat constructor.
Qed.

Lemma sort_tools_same l k :
  Forall2 same_record l k → Forall2 same_record (sort_tools l) (sort_tools k).
Proof.
  induction 1 as [|a b l k Hab Hlk IH]; [constructor|].
  unfold sort_tools, stable_sort. simpl. apply insert_by_same; [|done|done].
  intros x x' y y' Hx Hy.
  by rewrite (same_record_sort_key _ _ Hx), (same_record_sort_key _ _ Hy).
Qed.

Lemma gathered_in_orders o o' w :
  set_order o → set_order o' →
  Forall2 same_record (gathered_in o w) (gathered_in o' w).
Proof.
  intros Ho Ho'. unfold gathered_in. apply sort_tools_same.
  rewrite !collect_in_eq. apply Forall2_fmap, Forall_Forall2_diag, Forall_forall.
  intros f _. by apply tool_record_orders.
Qed.

(** The records of two runs, each with its own order of sets, on
    directories that differ only in files that the gather step does not
    read. *)
Lemma gathered_in_ext o o' w w' :
  set_order o → set_order o' →
  git_log w' = git_log w →
  (∀ p, ends_with (py ".html") p = true → generated (basename p) = false →
        fs w' !! p = fs w !! p) →
  Forall2 same_record (gathered_in o' w') (gathered_in o w).
Proof.
  intros Ho Ho' Hgit Hfs.
  eapply Forall2_trans; [apply same_record_trans
                        |apply (gathered_in_orders o' list_set w')
                        |]; [done|apply set_order_list_set|].
  change (gathered_in list_set w') with (sort_tools (collect w')).
  rewrite (collect_ext w w') by done.
  apply (gathered_in_orders list_set o w); [apply set_order_list_set|done].
Qed.

(** X4: the gather step reads nothing but the pages of the tools and their
    logs.  Take two runs, each with its own order of the elements of a set,
    on directories that differ only in files that are generated pages or
    do not end in [.html], with the same logs: they make the same records
    in the same order, up to the order of the urls inside a record. *)
Theorem gathered_ignores_other_files (o o' : list str → list str) (w w' : world) :
  set_order o → set_order o' →
  git_log w' = git_log w →
  (∀ p, ends_with (py ".html") p = true → generated (basename p) = false →
        fs w' !! p = fs w !! p) →
  Forall2 same_record (gathered_in o' w') (gathered_in o w).
Proof. apply gathered_in_ext. Qed.

Lemma insert_by_filter {A} (before : A → A → bool) (C : A → Prop)
    `{∀ x, Decision (C x)} x l :
  (∀ a b, C a → C b → before a b = false) →
  filter C (insert_by before x l) = filter C (x :: l).
Proof.
  intros HC. induction l as [|y l IH]; simpl; [done|].
  destruct (before y x) eqn:E; [|done].
  rewrite filter_cons, IH, !filter_cons.
  destruct (decide (C y)) as [Hy|Hy]; [|done].
  destruct (decide (C x)) as [Hx|Hx]; [|done].
  by rewrite HC in E.
Qed.

Lemma stable_sort_filter {A} (before : A → A → bool) (C : A → Prop)
    `{∀ x, Decision (C x)} l :
  (∀ a b, C a → C b → before a b = false) →
  filter C (stable_sort before l) = filter C l.
Proof.
  intros HC. induction l as [|x l IH]; [done|].
  change (stable_sort before (x :: l))
    with (insert_by before x (stable_sort before l)).
  by rewrite insert_by_filter, !filter_cons, IH.
Qed.

Lemma str_ltb_irrefl a : str_ltb a a = false.
Proof.
  induction a as [|x a IH]; [done|]. simpl.
  by rewrite N.ltb_irrefl, N.eqb_refl, IH.
Qed.

Lemma fmap_filter_sorted {A B} (R : B → B → Prop) (f : A → B) (P : A → Prop)
    `{∀ x, Decision (P x)} l :
  StronglySorted R (f <$> l) → StronglySorted R (f <$> filter P l).
Proof.
  induction l as [|x l IH]; [done|]. rewrite fmap_cons, filter_cons.
  intros [Hx Hl]%StronglySorted_cons. destruct (decide (P x)); [|by apply IH].
  rewrite fmap_cons. apply StronglySorted_cons. split; [|by apply IH].
  rewrite Forall_forall in Hx |- *.
  intros y (a & -> & [_ Ha]%list_elem_of_filter)%list_elem_of_fmap.
  apply Hx. by apply list_elem_of_fmap_2.
Qed.

(** X5: the sort of [main] is stable: the records that have the same sort
    key stand in the sorted list as they stood before, that is in the
    ascending order of their file names. *)
Theorem gathered_sort_stable (w : world) (k : str) :
  filter (λ t, sort_key t = k) (gathered w) =
    filter (λ t, sort_key t = k) (collect w) ∧
  StronglySorted (λ a b, str_ltb a b = true)
                 (file <$> filter (λ t, sort_key t = k) (gathered w)).
Proof.
  assert (Heq : filter (λ t, sort_key t = k) (gathered w) =
                filter (λ t, sort_key t = k) (collect w)).
  { apply (stable_sort_filter (λ y x, str_ltb (sort_key x) (sort_key y))).
    intros a b -> ->. apply str_ltb_irrefl. }
  split; [done|]. rewrite Heq. apply fmap_filter_sorted.
  apply (collect_in_file_order_aux w).
Qed.

(** ** The build steps and the whole run *)

Lemma load_gathered_write w path text :
  path ≠ GATHERED → load_gathered (write_text path text w) = load_gathered w.
Proof.
  intros Hp. unfold load_gathered, write_text. simpl.
  by rewrite lookup_insert_ne.
Qed.

Lemma load_gathered_print w line : load_gathered (print line w) = load_gathered w.
Proof. done. Qed.

(** X6: the two build steps do not get in each other's way.  When both
    return on a directory, they can be run in either order and leave the
    same files, of which only [index.html] and [colophon.html] may differ
    from before; and running a step a second time changes no file. *)
Theorem build_steps_independent (w : world) :
  ∀ wi wc, build_index w = Returned wi → build_colophon w = Returned wc →
    ∃ wic wci wii,
      build_colophon wi = Returned wic ∧ build_index wc = Returned wci ∧
      build_index wi = Returned wii ∧
      fs wic = fs wci ∧ fs wii = fs wi ∧
      ∀ p, p ≠ INDEX → p ≠ COLOPHON → fs wic !! p = fs w !! p.
Proof.
  destruct output_names_differ as (Hgi & Hgc & Hic).
  assert (INDEX ≠ GATHERED ∧ COLOPHON ≠ GATHERED ∧ COLOPHON ≠ INDEX)
    as (Hig & Hcg & Hci) by done.
  unfold build_index, build_colophon.
  destruct (load_gathered w) as [[]|[tools|]] eqn:Hload.
  - intros wi wc [= <-] [= <-].
    rewrite !load_gathered_print, Hload. by eexists _, _, _.
  - intros wi wc [= <-] [= <-].
    rewrite !load_gathered_print, !load_gathered_write, Hload by done.
    eexists _, _, _. split; [done|]. split; [done|]. split; [done|]. simpl.
    split; [by apply insert_insert_ne|]. split; [by apply insert_insert_eq|].
    intros p Hpi Hpc. by rewrite !lookup_insert_ne.
  - by intros wi wc [=].
Qed.

Lemma outputs_not_scanned p :
  ends_with (py ".html") p = true → generated (basename p) = false →
  p ≠ GATHERED ∧ p ≠ INDEX ∧ p ≠ COLOPHON.
Proof.
  intros Hext Hgen. repeat split; intros ->; by vm_compute in Hext, Hgen.
Qed.

Lemma main_in_effect o w :
  main_in o w = World (<[GATHERED := Text (json_dumps (gathered_in o w))]> (fs w))
                      (git_log w) (stdout w ++ summary (gathered_in o w)).
Proof. unfold main_in. by rewrite fold_print. Qed.

Lemma pipeline_in_effect o w :
  pipeline_in o w =
  Returned
    (World (<[COLOPHON := Text (colophon_page (gathered_in o w))]>
              (<[INDEX := Text (index_page (gathered_in o w))]>
                 (<[GATHERED := Text (json_dumps (gathered_in o w))]> (fs w))))
           (git_log w)
           ((stdout w ++ summary (gathered_in o w)) ++
            [py "Built index.html with " ++ py_nat (length (gathered_in o w)) ++
             py " tool(s)";
             py "Built colophon.html with " ++ py_nat (length (gathered_in o w)) ++
             py " tool(s)"])).
Proof.
  destruct output_names_differ as (Hgi & Hgc & Hic).
  unfold pipeline_in, build_index, build_colophon, load_gathered.
  rewrite main_in_effect. simpl. rewrite lookup_insert_eq, json_roundtrip. simpl.
  rewrite lookup_insert_ne, lookup_insert_eq, json_roundtrip by done.
  unfold print, write_text. simpl. by rewrite <-!app_assoc.
Qed.

Lemma summary_same ts ts' :
  Forall2 same_record ts ts' → summary ts = summary ts'.
Proof.
  intros H. unfold summary. rewrite (Forall2_length _ _ _ H). f_equal.
  induction H as [|a b l k (_ & _ & Ht & _ & Hc & _) _ IH]; [done|].
  cbn [map]. by rewrite Ht, Hc, IH.
Qed.

(** X7: a run of the three scripts does not feed on its own output.  Run
    again on the directory it left, with the logs unchanged and with
    another order of the elements of a set, the gather step makes the same
    records up to the order of the urls inside a record; the second run
    rewrites the intermediate file from these records and, where the two
    pages are made without regard to that order, leaves every other file
    as it is and prints what the first run printed. *)
Theorem pipeline_idempotent (o1 o2 : list str → list str) (w : world) :
  set_order o1 → set_order o2 →
  (∀ ts ts', Forall2 same_record ts ts' → index_page ts = index_page ts') →
  (∀ ts ts', Forall2 same_record ts ts' → colophon_page ts = colophon_page ts') →
  ∃ w1 w2,
    pipeline_in o1 w = Returned w1 ∧ pipeline_in o2 w1 = Returned w2 ∧
    Forall2 same_record (gathered_in o2 w1) (gathered_in o1 w) ∧
    fs w1 !! GATHERED = Some (Text (json_dumps (gathered_in o1 w))) ∧
    fs w2 !! GATHERED = Some (Text (json_dumps (gathered_in o2 w1))) ∧
    (∀ p, p ≠ GATHERED → fs w2 !! p = fs w1 !! p) ∧
    ∃ lines, stdout w1 = stdout w ++ lines ∧ stdout w2 = stdout w1 ++ lines.
Proof.
  intros Ho1 Ho2 Hindex Hcolophon.
  destruct output_names_differ as (Hgi & Hgc & Hic).
  pose proof (pipeline_in_effect o1 w) as H1.
  match type of H1 with _ = Returned ?x => set (w1 := x) in * end.
  pose proof (pipeline_in_effect o2 w1) as H2.
  assert (Hg : Forall2 same_record (gathered_in o2 w1) (gathered_in o1 w)).
  { apply gathered_in_ext; [done|done|done|]. simpl.
    intros p Hext Hgen.
    destruct (outputs_not_scanned p Hext Hgen) as (? & ? & ?).
    by rewrite !lookup_insert_ne. }
  rewrite (Hindex _ _ Hg), (Hcolophon _ _ Hg), (summary_same _ _ Hg),
    (Forall2_length _ _ _ Hg) in H2.
  eexists w1, _. split; [exact H1|]. split; [exact H2|].
  split; [exact Hg|]. split; [|split; [|split]].
  - subst w1. simpl. rewrite !lookup_insert.
    repeat case_decide; congruence.
  - simpl. rewrite !lookup_insert. repeat case_decide; congruence.
  - intros p Hp. subst w1. simpl. rewrite !lookup_insert.
    by repeat case_decide.
  - subst w1. simpl. eexists. split; [by rewrite <-app_assoc|].
    by rewrite <-!app_assoc.
Qed.

(** ** Extraction from text *)

Lemma many_total p k s :
  (∀ t, is_Some (k t)) → is_Some (many p 0 k s).
Proof.
  intros Hk. induction s as [|c s IH]; simpl.
  - destruct (Hk []) as [r ->]. by eexists.
  - destruct (p c); [|destruct (Hk (c :: s)) as [r ->]; by eexists].
    destruct IH as [[m r] ->]. by eexists.
Qed.

(** A repetition that the rest of the pattern never sends back takes all
    the characters it can. *)
Lemma many_greedy p k s : ∀ least m r,
  (∀ t, is_Some (k t)) → many p least k s = Some (m, r) →
  ∃ s', s = m ++ s' ∧ k s' = Some r ∧
        (s' = [] ∨ ∃ c t, s' = c :: t ∧ p c = false).
Proof.
  induction s as [|c s IH]; intros least m r Hk H; simpl in H.
  - destruct least; [|done]. destruct (k []) eqn:E; [|done].
    injection H as <- <-. exists []. auto.
  - destruct (p c) eqn:Hp.
    + destruct (many p (pred least) k s) as [[m' r']|] eqn:E.
      * injection H as <- <-. destruct (IH _ _ _ Hk E) as (s' & -> & ? & ?).
        by exists s'.
      * destruct least as [|[|n]]; [|done..].
        destruct (many_total p k s Hk) as [x Hx]. simpl in E. congruence.
    + destruct least; [|done]. destruct (k (c :: s)) eqn:E; [|done].
      injection H as <- <-. exists (c :: s). split; [done|]. split; [done|].
      right. by exists c, s.
Qed.

Lemma match_items_last_greedy its least p : ∀ s ps t,
  match_items (its ++ [Many least p]) s = Some (ps, t) →
  t = [] ∨ ∃ c t', t = c :: t' ∧ p c = false.
Proof.
  induction its as [|it its IH]; intros s ps t H; simpl in H.
  - destruct (many p least _ s) as [[m [ps' t']]|] eqn:E; [|done].
    injection H as <- <-.
    apply many_greedy in E as (s' & _ & [= <- <-] & Hend); [done|].
    intros x. by eexists.
  - destruct it as [q|q|n q].
    + destruct s as [|c s]; [done|]. destruct (q c); [|done].
      destruct (match_items _ s) as [[ps' t']|] eqn:E; [|done].
      injection H as <- <-. by eapply IH.
    + assert (Hskip : push [] (match_items (its ++ [Many least p]) s) = Some (ps, t) →
                      t = [] ∨ ∃ c t', t = c :: t' ∧ p c = false).
      { destruct (match_items _ s) as [[ps' t']|] eqn:E; [|done].
        intros [= <- <-]. by eapply IH. }
      destruct s as [|c s]; [by apply Hskip|].
      destruct (q c); [|by apply Hskip].
      destruct (match_items _ s) as [[ps' t']|] eqn:E; [|by apply Hskip].
      injection H as <- <-. by eapply IH.
    + destruct (many q n _ s) as [[m [ps' t']]|] eqn:E; [|done].
      injection H as <- <-.
      apply many_sound in E as (_ & _ & s' & _ & Hk). by eapply IH.
Qed.

Lemma findall_from_infix pat u s : ∀ skip,
  u ∈ findall_from pat skip s →
  ∃ pre s' m, s = pre ++ s' ∧ match_at pat s' = Some m ∧ m_whole m = u.
Proof.
  induction s as [|c s IH]; intros skip H.
  - destruct skip; simpl in H; [|by apply elem_of_nil in H].
    destruct (match_at pat []) as [m|] eqn:E; [|by apply elem_of_nil in H].
    apply list_elem_of_singleton in H as ->. by exists [], [], m.
  - assert (Htail : ∀ k, u ∈ findall_from pat k s →
              ∃ pre s' m, c :: s = pre ++ s' ∧ match_at pat s' = Some m ∧
                          m_whole m = u).
    { intros k (pre & s' & m & -> & ? & ?)%IH. by exists (c :: pre), s', m. }
    destruct skip; simpl in H; [|by eapply Htail].
    destruct (match_at pat (c :: s)) as [m|] eqn:E; [|by eapply Htail].
    apply elem_of_cons in H as [->|H]; [|by eapply Htail].
    by exists [], (c :: s), m.
Qed.

Lemma rstrip_by_split p s : ∃ t, s = rstrip_by p s ++ t ∧ Forall (λ c, p c = true) t.
Proof.
  induction s as [|x s (t & IH & Ht)]; simpl; [by exists []|].
  destruct (rstrip_by p s) as [|y r] eqn:E.
  - destruct (p x) eqn:Hx.
    + exists (x :: s). split; [done|]. simpl in IH. subst. by constructor.
    + exists t. simpl. split; [by rewrite IH at 1|done].
  - exists t. simpl. split; [by rewrite IH at 1|done].
Qed.

Lemma url_pattern_items :
  before url_pattern ++ group url_pattern ++ after url_pattern =
  (lits (py "http") ++ [Opt (N.eqb 115)] ++ lits (py "://")) ++ [Many 1 url_char].
Proof. reflexivity. Qed.

(** X8: [extract_urls] returns pieces of the text and cuts nothing but
    trailing punctuation: after a returned URL the text has only
    characters of [.,;:!?] up to the end or up to a character that cannot
    be in a URL. *)
Theorem extract_urls_infix (text u : str) :
  u ∈ extract_urls text →
  ∃ a t rest, text = a ++ u ++ t ++ rest ∧
              Forall (λ c, c ∈ py ".,;:!?") t ∧
              (rest = [] ∨ ∃ c rest', rest = c :: rest' ∧ url_char c = false).
Proof using.
  no_tables.
  unfold extract_urls. intros (m & -> & Hm)%list_elem_of_fmap.
  apply findall_from_infix in Hm as (pre & s' & r & -> & Hr & <-).
  pose proof (match_at_sound _ _ _ Hr) as Hs'.
  assert (Hend : m_rest r = [] ∨ ∃ c t', m_rest r = c :: t' ∧ url_char c = false).
  { unfold match_at in Hr. rewrite url_pattern_items in Hr.
    destruct (match_items _ s') as [[ps t]|] eqn:E; [|done].
    injection Hr as <-. simpl. by eapply match_items_last_greedy. }
  destruct (rstrip_by_split (λ c, mem c (py ".,;:!?")) (m_whole r)) as (t & Ht & Hall).
  exists pre, t, (m_rest r). split.
  - rewrite Hs'. rewrite Ht at 1. unfold rstrip. by rewrite <-!app_assoc.
  - split; [|done]. eapply Forall_impl; [exact Hall|]. intros c Hc.
    cbv beta in Hc. unfold mem in Hc.
    apply existsb_exists in Hc as (x & Hx & Hc). apply N.eqb_eq in Hc as ->.
    by apply list_elem_of_In.
Qed.

Lemma replace_removes old new s : old ∉ new → old ∉ replace old new s.
Proof.
  intros Hnew. induction s as [|c s IH]; [apply not_elem_of_nil|].
  change (replace old new (c :: s))
    with ((if c =? old then new else [c]) ++ replace old new s).
  apply not_elem_of_app. split; [|done].
  destruct (N.eqb_spec c old); [done|].
  apply not_elem_of_cons. split; [congruence|apply not_elem_of_nil].
Qed.

Lemma replace_keeps_absent x old new s :
  x ∉ new → x ∉ s → x ∉ replace old new s.
Proof.
  intros Hnew. induction s as [|c s IH]; [done|].
  intros [Hc Hs]%not_elem_of_cons.
  change (replace old new (c :: s))
    with ((if c =? old then new else [c]) ++ replace old new s).
  apply not_elem_of_app. split; [|auto].
  destruct (c =? old); [done|].
  apply not_elem_of_cons. split; [done|apply not_elem_of_nil].
Qed.

Lemma replace_length old new s :
  length new = 1%nat → length (replace old new s) = length s.
Proof.
  intros Hnew. induction s as [|c s IH]; [done|].
  change (replace old new (c :: s))
    with ((if c =? old then new else [c]) ++ replace old new s).
  rewrite length_app, IH. by destruct (c =? old); [rewrite Hnew|].
Qed.

Lemma title_pattern_tags s m :
  match_at title_pattern s = Some m →
  ∃ opening closing,
    m_whole m = title_tag opening (m_group m) closing ∧
    ci_word (py "title") opening ∧ ci_word (py "title") closing ∧
    m_group m ≠ [] ∧ (60 ∉ m_group m).
Proof.
  intros (ps1 & ps2 & ps3 & H1 & H2 & H3 & Hw & Hg & _)%match_at_parts.
  rewrite Hw, Hg. unfold title_pattern in H1, H2, H3. py_eval.
  simpl in H1, H2, H3. break_pieces. subst.
  eexists [_; _; _; _; _], [_; _; _; _; _].
  split; [unfold title_tag; py_eval; simpl; rewrite ?app_nil_r; reflexivity|].
  unfold ci_word. py_eval.
  split; [by repeat constructor|]. split; [by repeat constructor|].
  simpl. rewrite app_nil_r.
  split; [by intros ->; simpl in *; lia|].
  intros Hin.
  match goal with H : Forall _ _ |- _ => rewrite Forall_forall in H; by apply H in Hin end.
Qed.

(** The title pattern matches a title element whose text is not empty and
    holds no [<], whatever the case of its tags, and captures the text. *)
Lemma title_tag_match opening closing v rest :
  ci_word (py "title") opening → ci_word (py "title") closing →
  v ≠ [] → (60 ∉ v) →
  match_at title_pattern (title_tag opening v closing ++ rest)
  = Some (Match (title_tag opening v closing) v rest).
Proof.
  unfold ci_word. py_eval. intros Ho Hc Hne Hv.
  assert (Hlen : (1 ≤ length v)%nat) by (destruct v; [done|simpl; lia]).
  assert (Hv' : Forall (λ c, negb (c =? 60) = true) v).
  { apply Forall_forall. intros c Hin. apply negb_true_iff, N.eqb_neq.
    by intros ->. }
  repeat match goal with
         | H : Forall2 _ (_ :: _) _ |- _ =>
             apply Forall2_cons_inv_l in H as (? & ? & ? & H & ->)
         | H : Forall2 _ [] _ |- _ => apply Forall2_nil_inv_l in H as ->
         end.
  unfold match_at, title_pattern, title_tag. cbn [before group after].
  py_eval. rewrite <-!app_assoc.
  cbn [lits lits_i map app length]. unfold lit, lit_i.
  repeat first
    [ rewrite (match_items_one (N.eqb _)) by apply N.eqb_refl
    | rewrite (match_items_one (ci_eq _)) by done ].
  rewrite match_items_many.
  erewrite (many_take _ _ v 60); [|exact Hv'|done|done|].
  2:{ repeat first
        [ rewrite (match_items_one (N.eqb _)) by apply N.eqb_refl
        | rewrite (match_items_one (ci_eq _)) by done ].
      reflexivity. }
  cbn [push concat take drop app]. by rewrite !app_nil_r.
Qed.

Lemma split_nonempty sep s : split sep s ≠ [].
Proof.
  destruct s as [|c s]; simpl; [done|].
  destruct (c =? sep); [done|]. by destruct (split sep s).
Qed.

Lemma split_app sep a b :
  split sep (a ++ sep :: b) = split sep a ++ split sep b.
Proof.
  induction a as [|c a IH]; simpl; [by rewrite N.eqb_refl|].
  rewrite IH. destruct (c =? sep); [done|].
  pose proof (split_nonempty sep a). by destruct (split sep a).
Qed.

Lemma split_absent sep s : sep ∉ s → split sep s = [s].
Proof.
  induction s as [|c s IH]; [done|].
  intros [Hc Hs]%not_elem_of_cons. simpl.
  destruct (N.eqb_spec c sep) as [->|_]; [done|]. by rewrite IH.
Qed.

Lemma join_split sep s : concat (map (cons sep) (split sep s)) = sep :: s.
Proof.
  induction s as [|c s IH]; [done|]. simpl.
  destruct (N.eqb_spec c sep) as [->|_]; [simpl; by rewrite IH|].
  destruct (split sep s) as [|h t]; [done|].
  simpl in IH |- *. by injection IH as ->.
Qed.

(** [Path(name).stem] of a page in the directory: the name without
    [.html]. *)
Lemma stem_html base :
  base ≠ [] → (47 ∉ base) → stem (base ++ py ".html") = base.
Proof.
  intros Hne Hslash. unfold stem, basename.
  rewrite (split_absent 47 (base ++ py ".html")).
  2:{ apply not_elem_of_app. split; [done|]. by_compute. }
  cbn [last default from_option id]. py_eval.
  rewrite (split_app 46 base).
  change (split 46 [104; 116; 109; 108]) with [[104; 116; 109; 108]].
  rewrite reverse_app.
  change (reverse [[104; 116; 109; 108]]) with [[104; 116; 109; 108]].
  cbn [app].
  destruct (reverse (split 46 base)) as [|x front] eqn:E.
  { apply (f_equal reverse) in E. rewrite reverse_involutive in E.
    by apply split_nonempty in E. }
  rewrite <-E, reverse_involutive, join_split. cbn [drop].
  by destruct base.
Qed.

(** X9: [extract_title] returns the stripped text of the leftmost
    [<title>] element, taken whatever the case of its tags; the text is
    not empty before it is stripped and holds no [<].  So a page whose
    first match is a title element with such a text gets that text,
    stripped.  When a page of the directory, named by a file name that
    ends in [.html], cannot be read or has no such element, the title is
    made from the name without [.html], in which every hyphen and
    underscore has become a space before the words are capitalised. *)
Theorem extract_title_cases (w : world) (html_path : str) :
  (∀ content m,
     read_text w html_path = Some content →
     re_search title_pattern content = Some m →
     extract_title w html_path = strip (m_group m) ∧
     ∃ pre opening closing,
       content = pre ++ title_tag opening (m_group m) closing ++ m_rest m ∧
       ci_word (py "title") opening ∧ ci_word (py "title") closing ∧
       no_match_before title_pattern pre
         (title_tag opening (m_group m) closing ++ m_rest m) ∧
       m_group m ≠ [] ∧ (60 ∉ m_group m)) ∧
  (∀ pre opening closing v rest,
     read_text w html_path = Some (pre ++ title_tag opening v closing ++ rest) →
     ci_word (py "title") opening → ci_word (py "title") closing →
     no_match_before title_pattern pre (title_tag opening v closing ++ rest) →
     v ≠ [] → (60 ∉ v) →
     extract_title w html_path = strip v) ∧
  (∀ base,
     html_path = base ++ py ".html" → base ≠ [] → (47 ∉ base) →
     read_text w html_path = None ∨
     (∃ content, read_text w html_path = Some content ∧
                 re_search title_pattern content = None) →
     stem html_path = base ∧
     ∃ name,
       extract_title w html_path = str_title name ∧
       name = replace 95 (py " ") (replace 45 (py " ") base) ∧
       (45 ∉ name) ∧ (95 ∉ name) ∧ length name = length base).
Proof.
  unfold extract_title. split; [|split].
  - intros content m -> Hm. rewrite Hm. split; [done|].
    apply re_search_first in Hm as (pre & -> & Hat & Hno).
    destruct (title_pattern_tags _ _ Hat) as (o & c & Hw & ? & ? & ? & ?).
    exists pre, o, c. by rewrite <-Hw.
  - intros pre o c v rest -> Ho Hc Hno Hne Hv.
    rewrite (re_search_app _ _ _ Hno).
    by rewrite (re_search_here _ _ _ (title_tag_match o c v rest Ho Hc Hne Hv)).
  - intros base -> Hne Hslash Hcase.
    rewrite (stem_html base Hne Hslash). split; [done|].
    eexists. split.
    + destruct Hcase as [->|(content & -> & ->)]; done.
    + split; [done|]. split; [|split].
      * apply replace_keeps_absent; [by_compute|].
        apply replace_removes. by_compute.
      * apply replace_removes. by_compute.
      * by rewrite !replace_length.
Qed.

(** ** The fields of a commit record *)

Lemma split_pieces_no_sep sep s e : e ∈ split sep s → sep ∉ e.
Proof.
  revert e. induction s as [|c s IH]; intros e; simpl.
  - intros ->%list_elem_of_singleton. apply not_elem_of_nil.
  - destruct (N.eqb_spec c sep) as [->|Hne].
    + intros [->|He]%elem_of_cons; [apply not_elem_of_nil|by apply IH].
    + destruct (split sep s) as [|h t] eqn:E; simpl.
      * intros ->%list_elem_of_singleton.
        apply not_elem_of_cons. split; [congruence|apply not_elem_of_nil].
      * intros [->|He]%elem_of_cons.
        -- apply not_elem_of_cons. split; [congruence|]. apply IH. left.
        -- apply IH. by right.
Qed.

Lemma strip_elem c s : c ∈ strip s → c ∈ s.
Proof.
  unfold strip. intros Hc.
  destruct (rstrip_by_prefix is_space (lstrip_by is_space s)) as [t Ht].
  destruct (lstrip_by_suffix is_space s) as [a Ha].
  rewrite Ha, Ht. apply elem_of_app. right. apply elem_of_app. by left.
Qed.

(** X10: in every commit record the hash and the date hold no bar and no
    NUL, the hash does not begin with white space, and the message holds no
    NUL. *)
Theorem commit_fields_clean (w : world) (file_path : str) (r : commit) :
  r ∈ get_file_commit_details w file_path →
  (124 ∉ hash r) ∧ (124 ∉ date r) ∧ (NUL ∉ hash r) ∧ (NUL ∉ date r) ∧
  (NUL ∉ message r) ∧ (∀ c, head (hash r) = Some c → is_space c = false).
Proof using.
  no_tables.
  unfold get_file_commit_details, parse_log. rewrite fold_add_entry.
  intros [[]%elem_of_nil|(entry & h & d & m & He & (Hs & Hh & Hd) & ->)]. simpl.
  assert (Hnul : NUL ∉ h ++ 124 :: d ++ 124 :: m).
  { rewrite <-Hs. intros Hin%strip_elem. by eapply split_pieces_no_sep. }
  rewrite !not_elem_of_app, !not_elem_of_cons, not_elem_of_app,
    not_elem_of_cons in Hnul.
  destruct Hnul as (Hnh & _ & Hnd & _ & Hnm).
  repeat split; try done.
  - by intros Hin%strip_elem.
  - intros c Hc. destruct (strip_ends entry) as [Hhead _]. apply Hhead.
    rewrite Hs. by destruct h.
Qed.

(** ** format_commit_message, line by line *)

Lemma many_app p k k' c0 y :
  p c0 = false →
  (∀ x, k' (x ++ c0 :: y) = extend (c0 :: y) (k x)) →
  ∀ x least,
    many p least k' (x ++ c0 :: y) =
    match many p least k x with
    | Some (m, (ps, t)) => Some (m, (ps, t ++ c0 :: y))
    | None => None
    end.
Proof.
  intros Hc0 Hk. induction x as [|c x IH]; intros least.
  - pose proof (Hk []) as H0. simpl in H0 |- *. rewrite Hc0.
    destruct least; [|done]. rewrite H0. by destruct (k []) as [[ps t]|].
  - pose proof (Hk (c :: x)) as H0. simpl in H0 |- *. destruct (p c).
    + rewrite IH. destruct (many p (pred least) k x) as [[m [ps t]]|]; [done|].
      destruct least; [|done]. rewrite H0.
      by destruct (k (c :: x)) as [[ps t]|].
    + destruct least; [|done]. rewrite H0.
      by destruct (k (c :: x)) as [[ps t]|].
Qed.

(** A character that no item of the pattern accepts ends every match: the
    pattern matches before it as it matches at the end of the text. *)
Lemma match_items_app its c0 y :
  Forall (λ it, item_test it c0 = false) its →
  ∀ x, match_items its (x ++ c0 :: y) = extend (c0 :: y) (match_items its x).
Proof.
  induction 1 as [|it its Hit _ IH]; intros x; [done|].
  destruct it as [p|p|least p]; simpl in Hit |- *.
  - destruct x as [|c x]; simpl; [by rewrite Hit|].
    destruct (p c); [|done]. rewrite IH.
    by destruct (match_items its x) as [[ps t]|].
  - destruct x as [|c x].
    + pose proof (IH []) as H0. simpl in H0 |- *. rewrite Hit, H0.
      by destruct (match_items its []) as [[ps t]|].
    + pose proof (IH (c :: x)) as H0. simpl in H0 |- *. rewrite H0, IH.
      destruct (p c).
      * destruct (match_items its x) as [[ps t]|]; [done|].
        by destruct (match_items its (c :: x)) as [[ps t]|].
      * by destruct (match_items its (c :: x)) as [[ps t]|].
  - rewrite (many_app p (match_items its) (match_items its) c0 y Hit IH).
    by destruct (many p least (match_items its) x) as [[m [ps t]]|].
Qed.

Lemma match_at_app pat c0 y x :
  Forall (λ it, item_test it c0 = false) (before pat ++ group pat ++ after pat) →
  match_at pat (x ++ c0 :: y) =
  (λ m, Match (m_whole m) (m_group m) (m_rest m ++ c0 :: y)) <$> match_at pat x.
Proof.
  intros Hits. unfold match_at. rewrite match_items_app by done.
  by destruct (match_items _ x) as [[ps t]|].
Qed.

Lemma sub_from_app pat tpl c0 y :
  Forall (λ it, item_test it c0 = false) (before pat ++ group pat ++ after pat) →
  match_at pat [] = None →
  ∀ x skip, (skip ≤ length x)%nat →
    sub_from pat tpl skip (x ++ c0 :: y) =
    sub_from pat tpl skip x ++ c0 :: sub_from pat tpl 0 y.
Proof.
  intros Hits Hnil. induction x as [|c x IH]; intros skip Hskip.
  - destruct skip; [|simpl in Hskip; lia].
    change ([] ++ c0 :: y) with (c0 :: y). rewrite sub_from_char.
    + simpl. by rewrite Hnil.
    + change (c0 :: y) with ([] ++ c0 :: y). by rewrite match_at_app, Hnil.
  - destruct skip as [|k]; [|simpl in *; apply IH; lia].
    change ((c :: x) ++ c0 :: y) with (c :: (x ++ c0 :: y)).
    change (sub_from pat tpl 0 (c :: (x ++ c0 :: y)))
      with (match match_at pat (c :: (x ++ c0 :: y)) with
            | Some m =>
                expand tpl (m_group m) ++
                match length (m_whole m) with
                | O => c :: sub_from pat tpl 0 (x ++ c0 :: y)
                | S k => sub_from pat tpl k (x ++ c0 :: y)
                end
            | None => c :: sub_from pat tpl 0 (x ++ c0 :: y)
            end).
    change (sub_from pat tpl 0 (c :: x))
      with (match match_at pat (c :: x) with
            | Some m =>
                expand tpl (m_group m) ++
                match length (m_whole m) with
                | O => c :: sub_from pat tpl 0 x
                | S k => sub_from pat tpl k x
                end
            | None => c :: sub_from pat tpl 0 x
            end).
    change (c :: (x ++ c0 :: y)) with ((c :: x) ++ c0 :: y) at 1.
    rewrite match_at_app by done.
    destruct (match_at pat (c :: x)) as [m|] eqn:Hm; simpl.
    + rewrite <-app_assoc. f_equal.
      pose proof (match_at_sound _ _ _ Hm) as Hs.
      destruct (m_whole m) as [|a wh] eqn:Hw; simpl.
      * by rewrite IH by (simpl; lia).
      * apply IH. simpl in Hs. injection Hs as _ ->. rewrite length_app. lia.
    + by rewrite IH by (simpl; lia).
Qed.

Lemma replace_cons_ne old new c s :
  c ≠ old → replace old new (c :: s) = c :: replace old new s.
Proof.
  intros Hc. change (replace old new (c :: s))
    with ((if c =? old then new else [c]) ++ replace old new s).
  by destruct (N.eqb_spec c old).
Qed.

Lemma html_escape_line a b :
  html_escape (a ++ LF :: b) = html_escape a ++ LF :: html_escape b.
Proof.
  unfold html_escape.
  by repeat (rewrite replace_app, replace_cons_ne by done).
Qed.

(** X11: the lines of a message are formatted one by one: the result for
    two parts joined by a line end is the result for the first part, the
    break with its line end, and the result for the second part.  No link
    runs over a line end. *)
Theorem format_commit_message_lines (a b : str) :
  format_commit_message (a ++ LF :: b) =
  format_commit_message a ++ py "<br>" ++ LF :: format_commit_message b.
Proof.
  unfold format_commit_message, re_sub. rewrite html_escape_line.
  rewrite (sub_from_app link_pattern link_template LF) by (by_compute || lia).
  rewrite (sub_from_app issue_pattern issue_template LF); [| |done|lia].
  - rewrite replace_app.
    change (replace LF ?n (LF :: ?s)) with (n ++ replace LF n s).
    by rewrite <-!app_assoc.
  - repeat constructor. simpl. by rewrite decimal_ascii.
Qed.

(** ** format_commit_message on plain text and on a single link *)

Lemma sub_from_none pat tpl s :
  (∀ pre t, s = pre ++ t → match_at pat t = None) → sub_from pat tpl 0 s = s.
Proof.
  induction s as [|c s IH]; intros Hnone.
  - simpl. by rewrite (Hnone [] []).
  - rewrite sub_from_char by by apply (Hnone []).
    f_equal. apply IH. intros pre t ->. by apply (Hnone (c :: pre)).
Qed.

Lemma link_needs_colon t m : match_at link_pattern t = Some m → 58 ∈ t.
Proof.
  intros (ps1 & ps2 & ps3 & H1 & H2 & H3 & Hw & _ & ->)%match_at_parts.
  rewrite Hw. unfold link_pattern in H1, H2, H3. py_eval.
  simpl in H1, H2, H3. break_pieces. subst. simpl.
  rewrite !elem_of_cons, !elem_of_app, !elem_of_cons. auto 20.
Qed.

Lemma issue_needs_hash t m : match_at issue_pattern t = Some m → 35 ∈ t.
Proof.
  intros Hm. rewrite (match_at_sound _ _ _ Hm).
  apply issue_match in Hm as [-> _]. left.
Qed.

Lemma sub_without pat tpl (x : N) s :
  (∀ t m, match_at pat t = Some m → x ∈ t) → x ∉ s →
  sub_from pat tpl 0 s = s.
Proof.
  intros Hx Hs. apply sub_from_none. intros pre t ->.
  destruct (match_at pat t) as [m|] eqn:E; [|done].
  exfalso. apply Hs, elem_of_app. right. by eapply Hx.
Qed.

(** X12: a message with none of the characters [&], [<], [>], the two
    quotes, [:], [#] and no line end comes back as it is. *)
Theorem format_commit_message_plain (message : str) :
  Forall (λ c, c ∉ py "&<>:#" ++ [DQUOTE; SQUOTE; LF]) message →
  format_commit_message message = message.
Proof.
  intros Hplain.
  assert (Habsent : ∀ x, x ∈ py "&<>:#" ++ [DQUOTE; SQUOTE; LF] → x ∉ message).
  { intros x Hx Hin. rewrite Forall_forall in Hplain. by apply (Hplain x). }
  unfold format_commit_message, html_escape, re_sub.
  rewrite (replace_absent 38 _ message) by (apply Habsent; by_compute).
  rewrite (replace_absent 60 _ message) by (apply Habsent; by_compute).
  rewrite (replace_absent 62 _ message) by (apply Habsent; by_compute).
  rewrite (replace_absent DQUOTE _ message) by (apply Habsent; by_compute).
  rewrite (replace_absent SQUOTE _ message) by (apply Habsent; by_compute).
  rewrite (sub_without link_pattern link_template 58);
    [|apply link_needs_colon|apply Habsent; by_compute].
  rewrite (sub_without issue_pattern issue_template 35);
    [|apply issue_needs_hash|apply Habsent; by_compute].
  apply replace_absent, Habsent. by_compute.
Qed.

Lemma many_all p k d r least :
  Forall (λ c, p c = true) d → (least ≤ length d)%nat → k [] = Some r →
  many p least k d = Some (d, r).
Proof.
  intros Hd. revert least. induction Hd as [|c d Hc _ IH]; intros least Hlen Hk.
  - simpl in *. destruct least; [|lia]. by rewrite Hk.
  - simpl. rewrite Hc, IH; [done|simpl in Hlen; lia|done].
Qed.

Lemma decimal_absent x d :
  Forall (λ c, is_decimal c = true) d → x < 128 →
  (x <? 48) || (57 <? x) = true → x ∉ d.
Proof.
  intros Hd Hx Hout Hin. rewrite Forall_forall in Hd. apply Hd in Hin.
  rewrite decimal_ascii in Hin by done.
  apply andb_true_iff in Hin as [H1%N.leb_le H2%N.leb_le].
  apply orb_true_iff in Hout as [H%N.ltb_lt|H%N.ltb_lt]; lia.
Qed.

Lemma issue_match_alone d :
  d ≠ [] → Forall (λ c, is_decimal c = true) d →
  match_at issue_pattern (35 :: d) = Some (Match (35 :: d) d []).
Proof.
  intros Hne Hd. unfold match_at, issue_pattern. py_eval. simpl.
  rewrite (many_all is_decimal _ d ([], [])); [|done| |done].
  - simpl. by rewrite !app_nil_r.
  - destruct d; [done|simpl; lia].
Qed.

Lemma link_match_alone scheme body :
  scheme ∈ [py "http://"; py "https://"] → body ≠ [] →
  Forall (λ c, negb (is_space c || mem c (py "<>&")) = true) body →
  match_at link_pattern (scheme ++ body) =
  Some (Match (scheme ++ body) (scheme ++ body) []).
Proof.
  intros Hs Hne Hb.
  assert (Hlen : (1 ≤ length body)%nat) by (destruct body; [done|simpl; lia]).
  each_piece Hs; unfold match_at, link_pattern; py_eval; simpl.
  - rewrite (many_all _ _ body ([], [])) by done. simpl. by rewrite !app_nil_r.
  - rewrite (many_all _ _ body ([], [])) by done. simpl. by rewrite !app_nil_r.
Qed.

Lemma sub_from_nil pat tpl : match_at pat [] = None → sub_from pat tpl 0 [] = [].
Proof. intros H. simpl. by rewrite H. Qed.

(** X13: a message that is one issue reference, [#] and digits, becomes the
    anchor to that issue of the repository; a message that is one URL, the
    scheme and characters that are not white space, [&], [<], [>], [#] or
    quotes, becomes the anchor whose address and text are the URL. *)
Theorem format_commit_message_single_link :
  (∀ d, d ≠ [] → Forall (λ c, is_decimal c = true) d →
        format_commit_message (35 :: d) = expand issue_template d) ∧
  (∀ scheme body,
     scheme ∈ [py "http://"; py "https://"] → body ≠ [] →
     Forall (λ c, is_space c = false ∧ c ∉ py "&<>#" ++ [DQUOTE; SQUOTE]) body →
     format_commit_message (scheme ++ body) =
     expand link_template (scheme ++ body)).
Proof.
  clear json_roundtrip ci_eq str_title json_dumps json_loads index_page
    colophon_page.
  split.
  - intros d Hne Hd.
    assert (Habsent : ∀ x, x ∈ py "&<>:" ++ [DQUOTE; SQUOTE; LF] → x ∉ 35 :: d).
    { intros x Hx. apply not_elem_of_cons. split.
      - intros ->. revert Hx. by_compute.
      - revert Hx. vm_compute (py "&<>:" ++ [DQUOTE; SQUOTE; LF]).
        rewrite !elem_of_cons, elem_of_nil.
        intros [->|[->|[->|[->|[->|[->|[->|[]]]]]]]];
          by apply decimal_absent. }
    unfold format_commit_message, html_escape, re_sub.
    rewrite (replace_absent 38 _ (35 :: d)) by (apply Habsent; by_compute).
    rewrite (replace_absent 60 _ (35 :: d)) by (apply Habsent; by_compute).
    rewrite (replace_absent 62 _ (35 :: d)) by (apply Habsent; by_compute).
    rewrite (replace_absent DQUOTE _ (35 :: d)) by (apply Habsent; by_compute).
    rewrite (replace_absent SQUOTE _ (35 :: d)) by (apply Habsent; by_compute).
    rewrite (sub_without link_pattern link_template 58);
      [|apply link_needs_colon|apply Habsent; by_compute].
    rewrite (sub_from_match _ _ _ _ (issue_match_alone d Hne Hd)) by done.
    simpl m_group. simpl m_rest. rewrite sub_from_nil by done.
    rewrite app_nil_r. apply replace_absent.
    unfold issue_template. rewrite expand_anchor.
    assert (LF ∉ d) by (by apply decimal_absent).
    rewrite !not_elem_of_app. repeat split; try done; by_compute.
  - intros scheme body Hs Hne Hb.
    assert (Hclass : Forall (λ c, negb (is_space c || mem c (py "<>&")) = true) body).
    { eapply Forall_impl; [exact Hb|]. intros c [Hsp Hc]. cbv beta.
      rewrite Hsp, orb_false_l.
      apply negb_true_iff, not_true_iff_false. intros Hm. apply Hc.
      unfold mem in Hm. apply existsb_exists in Hm as (x & Hx & Hcx).
      apply N.eqb_eq in Hcx as ->. apply list_elem_of_In in Hx.
      revert Hx. vm_compute (py "<>&"). vm_compute (py "&<>#" ++ [DQUOTE; SQUOTE]).
      rewrite !elem_of_cons. tauto. }
    assert (Habsent : ∀ x, x ∈ py "&<>#" ++ [DQUOTE; SQUOTE; LF] → x ∉ scheme ++ body).
    { intros x Hx. apply not_elem_of_app. split.
      - revert x Hx. each_piece Hs; apply Forall_forall; by_compute.
      - intros Hin. rewrite Forall_forall in Hb. destruct (Hb x Hin) as [Hsp Hc].
        revert Hx Hc Hsp. vm_compute (py "&<>#" ++ [DQUOTE; SQUOTE; LF]).
        vm_compute (py "&<>#" ++ [DQUOTE; SQUOTE]).
        rewrite !elem_of_cons, !elem_of_nil.
        intros [->|[->|[->|[->|[->|[->|[->|[]]]]]]]]; try tauto.
        by vm_compute. }
    unfold format_commit_message, html_escape, re_sub.
    rewrite (replace_absent 38 _ (scheme ++ body)) by (apply Habsent; by_compute).
    rewrite (replace_absent 60 _ (scheme ++ body)) by (apply Habsent; by_compute).
    rewrite (replace_absent 62 _ (scheme ++ body)) by (apply Habsent; by_compute).
    rewrite (replace_absent DQUOTE _ (scheme ++ body)) by (apply Habsent; by_compute).
    rewrite (replace_absent SQUOTE _ (scheme ++ body)) by (apply Habsent; by_compute).
    rewrite (sub_from_match _ _ _ _ (link_match_alone _ _ Hs Hne Hclass)).
    2:{ simpl. each_piece Hs; done. }
    simpl m_group. simpl m_rest. rewrite sub_from_nil by done.
    rewrite app_nil_r.
    assert (H35 : 35 ∉ scheme ++ body) by (apply Habsent; by_compute).
    assert (H10 : LF ∉ scheme ++ body) by (apply Habsent; by_compute).
    apply not_elem_of_app in H35 as [? ?]. apply not_elem_of_app in H10 as [? ?].
    unfold link_template. rewrite expand_anchor.
    rewrite (sub_without issue_pattern issue_template 35);
      [|apply issue_needs_hash|].
    + apply replace_absent. rewrite !not_elem_of_app.
      repeat split; try done; by_compute.
    + rewrite !not_elem_of_app. repeat split; try done; by_compute.
Qed.

(** X14: when git prints no commit for any scanned file, as it does outside
    a repository, the gather step does not fail: it writes the empty list
    of records and reports no tool. *)
Theorem gather_without_history (w : world) :
  (∀ f, f ∈ html_files w → get_file_commit_details w f = []) →
  gathered w = [] ∧
  fs (main w) = <[GATHERED := Text (json_dumps [])]> (fs w) ∧
  stdout (main w) = stdout w ++ [py "Gathered data for 0 tool(s)"].
Proof.
  intros Hnone.
  assert (Hg : gathered w = []).
  { unfold gathered. rewrite collect_eq.
    replace (filter (λ f, recorded w f = true) (html_files w)) with (@nil str);
      [done|].
    revert Hnone. induction (html_files w) as [|f l IH]; intros Hnone; [done|].
    rewrite filter_cons, decide_False.
    - apply IH. intros g Hg. apply Hnone. by right.
    - unfold recorded. rewrite (Hnone f) by left. by rewrite andb_false_r. }
  rewrite main_effect, Hg. done.
Qed.

End Scripts.

(** * The statements on the sample directory *)

Lemma code_roundtrip tools : code_loads (code_dumps tools) = Some tools.
Proof. unfold code_loads, code_dumps. apply decode_encode. Qed.

Lemma ascii_decimal_ascii c :
  c < 128 → ascii_decimal c = (48 <=? c) && (c <=? 57).
Proof. done. Qed.

Lemma created_updated_dates_witness :
  tool_record ascii_ci_eq ascii_title sample_world (py "b.html")
    ∈ gathered ascii_ci_eq ascii_title sample_world ∧
  commits (tool_record ascii_ci_eq ascii_title sample_world (py "b.html")) ≠ [] ∧
  ∃ newest oldest,
    head (commits (tool_record ascii_ci_eq ascii_title sample_world (py "b.html")))
      = Some newest ∧
    last (commits (tool_record ascii_ci_eq ascii_title sample_world (py "b.html")))
      = Some oldest ∧
    created (tool_record ascii_ci_eq ascii_title sample_world (py "b.html"))
      = Some (date oldest) ∧
    updated (tool_record ascii_ci_eq ascii_title sample_world (py "b.html"))
      = Some (date newest).
Proof.
  assert (H1 : tool_record ascii_ci_eq ascii_title sample_world (py "b.html")
                 ∈ gathered ascii_ci_eq ascii_title sample_world) by compute_done.
  assert (H2 : commits (tool_record ascii_ci_eq ascii_title sample_world
                          (py "b.html")) ≠ []) by compute_done.
  split; [exact H1|]. split; [exact H2|].
  exact (created_updated_dates ascii_ci_eq ascii_title sample_world _ H1 H2).
Defined.

Lemma build_without_gathered_witness :
  fs sample_world !! GATHERED = None ∧
  build_index code_loads plain_index sample_world
    = Returned (print NOT_FOUND sample_world) ∧
  build_colophon code_loads plain_colophon sample_world
    = Returned (print NOT_FOUND sample_world) ∧
  fs (print NOT_FOUND sample_world) !! INDEX = Some (Text (py "old index")).
Proof.
  assert (H : fs sample_world !! GATHERED = None) by compute_done.
  split; [exact H|].
  destruct (build_without_gathered code_loads plain_index plain_colophon
              sample_world H) as (Hi & Hc & _ & _ & Hindex & _).
  split; [exact Hi|]. split; [exact Hc|]. rewrite Hindex. compute_done.
Defined.

(** C3, as the specification has it, fails on the sample directory:
    [a.html] is scanned and has no history, yet the gather step does not
    stop with a message; it writes the intermediate file and prints the
    summary of the two other tools. *)
Lemma gather_returns_early_counterexample :
  (py "a.html" ∈ html_files sample_world ∧
   generated (basename (py "a.html")) = false ∧
   get_file_commit_details sample_world (py "a.html") = []) ∧
  ¬ returns_early ascii_ci_eq ascii_title code_dumps sample_world ∧
  stdout (main ascii_ci_eq ascii_title code_dumps sample_world) =
    [py "Gathered data for 2 tool(s)"; py "  - C (1 commits)";
     py "  - Beta Tool (2 commits)"].
Proof.
  split; [repeat split; compute_done|]. split; [|compute_done].
  intros [msg H].
  assert (Hnone : fs sample_world !! GATHERED = None) by compute_done.
  assert (Hl : fs (main ascii_ci_eq ascii_title code_dumps sample_world) !! GATHERED
               = fs (print msg sample_world) !! GATHERED) by by rewrite H.
  rewrite main_effect in Hl. unfold print in Hl. cbn [fs] in Hl.
  by rewrite lookup_insert_eq, Hnone in Hl.
Qed.

Lemma gather_skips_without_history_witness :
  get_file_commit_details sample_world (py "a.html") = [] ∧
  (∀ t, t ∈ gathered ascii_ci_eq ascii_title sample_world →
        file t ≠ py "a.html") ∧
  fs (main ascii_ci_eq ascii_title code_dumps sample_world) !! GATHERED =
    Some (Text (code_dumps (gathered ascii_ci_eq ascii_title sample_world))).
Proof.
  assert (H : get_file_commit_details sample_world (py "a.html") = [])
    by compute_done.
  destruct (gather_skips_without_history ascii_ci_eq ascii_title code_dumps
              sample_world) as (_ & Hskip & Hfs & _).
  split; [exact H|]. split; [exact (Hskip _ H)|].
  rewrite Hfs. apply lookup_insert_eq.
Defined.

Lemma urls_deduplicated_witness :
  tool_record ascii_ci_eq ascii_title sample_world (py "b.html")
    ∈ gathered ascii_ci_eq ascii_title sample_world ∧
  NoDup (urls (tool_record ascii_ci_eq ascii_title sample_world (py "b.html"))) ∧
  length (urls (tool_record ascii_ci_eq ascii_title sample_world (py "b.html")))
    = 2%nat.
Proof.
  assert (H1 : tool_record ascii_ci_eq ascii_title sample_world (py "b.html")
                 ∈ gathered ascii_ci_eq ascii_title sample_world) by compute_done.
  split; [exact H1|]. split; [|compute_done].
  exact (proj1 (urls_deduplicated ascii_ci_eq ascii_title sample_world _ H1)).
Defined.

Lemma commit_records_witness :
  git_log sample_world (py "b.html") = concat (log_entry <$> sample_log_b) ∧
  Forall log_fields_ok sample_log_b ∧
  get_file_commit_details sample_world (py "b.html") = log_commit <$> sample_log_b.
Proof.
  assert (H1 : git_log sample_world (py "b.html")
               = concat (log_entry <$> sample_log_b)) by compute_done.
  assert (H2 : Forall log_fields_ok sample_log_b).
  { repeat constructor; try compute_done; by intros x [= <-]. }
  split; [exact H1|]. split; [exact H2|].
  destruct (commit_records sample_world (py "b.html")) as (_ & _ & _ & _ & Hlog).
  exact (Hlog _ H1 H2).
Defined.

Lemma extract_urls_shape_witness :
  py "https://example.com/x" ∈
    extract_urls (py "Add tool <b> & docs (https://example.com/x).") ∧
  (starts_with (py "http://") (py "https://example.com/x") ∨
   starts_with (py "https://") (py "https://example.com/x")) ∧
  (∀ c, last (py "https://example.com/x") = Some c → c ∉ py ".,;:!?").
Proof.
  assert (H : py "https://example.com/x" ∈
                extract_urls (py "Add tool <b> & docs (https://example.com/x)."))
    by compute_done.
  split; [exact H|].
  destruct (extract_urls_shape _ _ H) as (Hscheme & _ & Hlast).
  split; [exact Hscheme|exact Hlast].
Defined.

Lemma pipeline_outputs_witness :
  (∀ tools, code_loads (code_dumps tools) = Some tools) ∧
  ∃ w', pipeline ascii_ci_eq ascii_title code_dumps code_loads plain_index
                 plain_colophon sample_world = Returned w' ∧
        fs w' !! py "notes.txt" = Some (Text (py "not a page")) ∧
        fs w' !! INDEX =
          Some (Text (plain_index (gathered ascii_ci_eq ascii_title sample_world))).
Proof.
  split; [exact code_roundtrip|].
  destruct (pipeline_outputs ascii_ci_eq ascii_title code_dumps code_loads
              plain_index plain_colophon code_roundtrip sample_world)
    as ((w' & Hrun & _ & _ & Hindex & _ & Hframe) & _).
  exists w'. split; [exact Hrun|]. split; [|exact Hindex].
  rewrite Hframe; compute_done.
Defined.

Lemma gathered_sorted_witness :
  (file <$> collect ascii_ci_eq ascii_title sample_world) = [py "b.html"; py "c.html"] ∧
  (file <$> gathered ascii_ci_eq ascii_title sample_world) = [py "c.html"; py "b.html"] ∧
  StronglySorted (λ a b, str_ltb (sort_key a) (sort_key b) = false)
                 (gathered ascii_ci_eq ascii_title sample_world) ∧
  sort_key (Tool [] [] [] [] [] [] None None) = [].
Proof.
  destruct (gathered_sorted ascii_ci_eq ascii_title sample_world)
    as (_ & Hsorted & Hnone & _).
  split; [compute_done|]. split; [compute_done|]. split; [exact Hsorted|].
  by apply Hnone.
Defined.

Lemma ascii_ci_eq_lower c : 97 ≤ c ≤ 122 → ascii_ci_eq c c = true.
Proof.
  intros Hc. unfold ascii_ci_eq.
  replace (c <=? 90) with false by (symmetry; apply N.leb_gt; lia).
  rewrite andb_false_r. apply N.eqb_refl.
Qed.

Lemma no_match_before_nil pat s : no_match_before pat [] s.
Proof. by intros [|? ?] [|? ?]. Qed.

Lemma extract_description_cases_witness :
  (∀ c, 97 ≤ c ≤ 122 → ascii_ci_eq c c = true) ∧
  read_text described_world (py "pad.html") = Some (described (py " Padded ")) ∧
  extract_description ascii_ci_eq described_world (py "pad.html") = py "Padded" ∧
  extract_description ascii_ci_eq sample_world (py "c.html")
    = py "Third, from a paragraph" ∧
  extract_description ascii_ci_eq sample_world (py "missing.html") = [].
Proof.
  destruct (extract_description_cases ascii_ci_eq sample_world (py "missing.html"))
    as [Hmissing _].
  destruct (extract_description_cases ascii_ci_eq described_world (py "pad.html"))
    as [_ Hpad].
  assert (Hread : read_text described_world (py "pad.html")
                  = Some (described (py " Padded "))) by compute_done.
  split; [exact ascii_ci_eq_lower|]. split; [exact Hread|].
  split; [|split; [compute_done|]].
  - destruct (Hpad _ Hread) as (_ & Htag & _).
    rewrite (Htag [] DQUOTE DQUOTE (py " Padded ") (py "><p>Body</p>")
               ascii_ci_eq_lower eq_refl (no_match_before_nil _ _)
               eq_refl eq_refl);
      [done|done|compute_done].
  - apply Hmissing. compute_done.
Defined.

(** C9, as the specification has it, fails on two pages that open with
    their meta description tag.  The content of the first is padded with
    spaces, and the result is the content without them.  The content of
    the second, in double quotes, holds an apostrophe, and the result
    stops before it. *)
Lemma extract_description_content_counterexample :
  (read_text described_world (py "pad.html")
     = Some (meta_tag DQUOTE DQUOTE (py " Padded ") ++ py "><p>Body</p>") ∧
   extract_description ascii_ci_eq described_world (py "pad.html") = py "Padded" ∧
   ¬ returns_tag_content ascii_ci_eq described_world (py "pad.html")) ∧
  (read_text described_world (py "tom.html")
     = Some (meta_tag DQUOTE DQUOTE (py "Tom's tool") ++ py "><p>Body</p>") ∧
   extract_description ascii_ci_eq described_world (py "tom.html") = py "Tom" ∧
   ¬ returns_tag_content ascii_ci_eq described_world (py "tom.html")).
Proof.
  split; (split; [compute_done|]); (split; [compute_done|]); intros H.
  - assert (He : extract_description ascii_ci_eq described_world (py "pad.html")
                 = py " Padded "); [|by vm_compute in He].
    apply (H [] DQUOTE DQUOTE (py " Padded ") (py "><p>Body</p>"));
      [compute_done|apply no_match_before_nil|done|done|done|compute_done].
  - assert (He : extract_description ascii_ci_eq described_world (py "tom.html")
                 = py "Tom's tool"); [|by vm_compute in He].
    apply (H [] DQUOTE DQUOTE (py "Tom's tool") (py "><p>Body</p>"));
      [compute_done|apply no_match_before_nil|done|done|done|compute_done].
Qed.

Lemma format_commit_message_markup_witness :
  (∀ c, c < 128 → ascii_decimal c = (48 <=? c) && (c <=? 57)) ∧
  html_escape (py "Add tool <b> & docs (https://example.com/x#3), see #12") =
    py "Add tool &lt;b&gt; &amp; docs (https://example.com/x#3), see #12" ∧
  py "Add tool &lt;b&gt; &amp; docs (https://example.com/x#3), see #12"
    `sublist_of`
    format_commit_message ascii_decimal
      (py "Add tool <b> & docs (https://example.com/x#3), see #12") ∧
  markup (format_commit_message ascii_decimal
            (py "Add tool <b> & docs (https://example.com/x#3), see #12")).
Proof.
  split; [exact ascii_decimal_ascii|].
  destruct (format_commit_message_markup ascii_decimal ascii_decimal_ascii
              (py "Add tool <b> & docs (https://example.com/x#3), see #12"))
    as (Hesc & _ & Hsub & Hm & _).
  split; [exact Hesc|]. split; [exact Hsub|exact Hm].
Defined.

(** ** The further properties on the sample directory *)

Lemma gathered_records_dated_witness :
  tool_record ascii_ci_eq ascii_title sample_world (py "c.html")
    ∈ gathered ascii_ci_eq ascii_title sample_world ∧
  is_Some (created (tool_record ascii_ci_eq ascii_title sample_world (py "c.html"))) ∧
  is_Some (updated (tool_record ascii_ci_eq ascii_title sample_world (py "c.html"))).
Proof.
  assert (H : tool_record ascii_ci_eq ascii_title sample_world (py "c.html")
                ∈ gathered ascii_ci_eq ascii_title sample_world) by compute_done.
  split; [exact H|].
  destruct (gathered_records_dated ascii_ci_eq ascii_title sample_world _ H)
    as (_ & _ & Hc & Hu).
  split; [exact Hc|exact Hu].
Defined.

Lemma gathered_one_record_per_file_witness :
  tool_record ascii_ci_eq ascii_title sample_world (py "b.html")
    ∈ gathered ascii_ci_eq ascii_title sample_world ∧
  NoDup (file <$> gathered ascii_ci_eq ascii_title sample_world) ∧
  slug (tool_record ascii_ci_eq ascii_title sample_world (py "b.html"))
    = stem (file (tool_record ascii_ci_eq ascii_title sample_world (py "b.html"))).
Proof.
  assert (H : tool_record ascii_ci_eq ascii_title sample_world (py "b.html")
                ∈ gathered ascii_ci_eq ascii_title sample_world) by compute_done.
  destruct (gathered_one_record_per_file ascii_ci_eq ascii_title sample_world)
    as [Hnodup Hrec].
  split; [exact H|]. split; [exact Hnodup|].
  exact (proj2 (proj2 (proj2 (Hrec _ H)))).
Defined.

Lemma set_order_reverse o : set_order o → set_order (λ l, reverse (o l)).
Proof.
  intros Ho l. destruct (Ho l) as [Hn Hin].
  split; [by rewrite reverse_Permutation|]. intros x. by rewrite elem_of_reverse.
Qed.

Lemma gathered_ignores_other_files_witness :
  (set_order list_set ∧ set_order (λ l, reverse (list_set l))) ∧
  git_log (write_text INDEX (py "new index")
             (write_text (py "notes.txt") (py "changed") sample_world))
    = git_log sample_world ∧
  Forall2 same_record
    (gathered_in ascii_ci_eq ascii_title (λ l, reverse (list_set l))
       (write_text INDEX (py "new index")
          (write_text (py "notes.txt") (py "changed") sample_world)))
    (gathered_in ascii_ci_eq ascii_title list_set sample_world).
Proof.
  pose proof set_order_list_set as Ho.
  pose proof (set_order_reverse _ Ho) as Ho'.
  split; [by split|]. split; [reflexivity|].
  apply (gathered_ignores_other_files ascii_ci_eq ascii_title _ _ _ _ Ho Ho');
    [reflexivity|].
  intros p Hext Hgen. unfold write_text. cbn [fs].
  rewrite lookup_insert_ne; [rewrite lookup_insert_ne; [reflexivity|]|].
  - intros <-. by vm_compute in Hext.
  - intros <-. by vm_compute in Hgen.
Defined.

Lemma build_steps_independent_witness :
  ∃ wi wc wic wci,
    build_index code_loads plain_index
      (write_text GATHERED (code_dumps []) sample_world) = Returned wi ∧
    build_colophon code_loads plain_colophon
      (write_text GATHERED (code_dumps []) sample_world) = Returned wc ∧
    build_colophon code_loads plain_colophon wi = Returned wic ∧
    build_index code_loads plain_index wc = Returned wci ∧
    fs wic = fs wci.
Proof.
  destruct (build_steps_independent code_loads plain_index plain_colophon
              (write_text GATHERED (code_dumps []) sample_world)
              _ _ eq_refl eq_refl) as (wic & wci & wii & H1 & H2 & _ & H3 & _).
  eexists _, _, wic, wci. split; [reflexivity|]. split; [reflexivity|].
  split; [exact H1|]. split; [exact H2|exact H3].
Defined.

Lemma plain_index_same ts ts' :
  Forall2 same_record ts ts' → plain_index ts = plain_index ts'.
Proof.
  intros H. unfold plain_index. f_equal.
  induction H as [|a b l k (_ & _ & Ht & _) _ IH]; [done|].
  cbn [flat_map]. by rewrite Ht, IH.
Qed.

Lemma plain_colophon_same ts ts' :
  Forall2 same_record ts ts' → plain_colophon ts = plain_colophon ts'.
Proof.
  intros H. unfold plain_colophon. f_equal.
  induction H as [|a b l k (_ & Hs & _) _ IH]; [done|].
  cbn [flat_map]. by rewrite Hs, IH.
Qed.

Lemma pipeline_idempotent_witness :
  (∀ tools, code_loads (code_dumps tools) = Some tools) ∧
  (set_order list_set ∧ set_order (λ l, reverse (list_set l))) ∧
  (∀ ts ts', Forall2 same_record ts ts' → plain_index ts = plain_index ts') ∧
  (∀ ts ts', Forall2 same_record ts ts' →
             plain_colophon ts = plain_colophon ts') ∧
  ∃ w1 w2,
    pipeline_in ascii_ci_eq ascii_title code_dumps code_loads plain_index
                plain_colophon list_set sample_world = Returned w1 ∧
    pipeline_in ascii_ci_eq ascii_title code_dumps code_loads plain_index
                plain_colophon (λ l, reverse (list_set l)) w1 = Returned w2 ∧
    ∀ p, p ≠ GATHERED → fs w2 !! p = fs w1 !! p.
Proof.
  pose proof set_order_list_set as Ho.
  pose proof (set_order_reverse _ Ho) as Ho'.
  split; [exact code_roundtrip|]. split; [by split|].
  split; [exact plain_index_same|]. split; [exact plain_colophon_same|].
  destruct (pipeline_idempotent ascii_ci_eq ascii_title code_dumps code_loads
              plain_index plain_colophon code_roundtrip _ _ sample_world
              Ho Ho' plain_index_same plain_colophon_same)
    as (w1 & w2 & H1 & H2 & _ & _ & _ & Hfs & _).
  exists w1, w2. split; [exact H1|]. split; [exact H2|exact Hfs].
Defined.

Lemma extract_urls_infix_witness :
  py "https://example.com/x" ∈
    extract_urls (py "Add tool <b> & docs (https://example.com/x).") ∧
  ∃ a t rest,
    py "Add tool <b> & docs (https://example.com/x)." =
      a ++ py "https://example.com/x" ++ t ++ rest ∧
    Forall (λ c, c ∈ py ".,;:!?") t.
Proof.
  assert (H : py "https://example.com/x" ∈
                extract_urls (py "Add tool <b> & docs (https://example.com/x)."))
    by compute_done.
  split; [exact H|].
  destruct (extract_urls_infix _ _ H) as (a & t & rest & Heq & Ht & _).
  exists a, t, rest. split; [exact Heq|exact Ht].
Defined.

Lemma extract_title_cases_witness :
  read_text sample_world (py "a.html")
    = Some ([] ++ title_tag (py "title") (py "Alpha") (py "title") ++ []) ∧
  extract_title ascii_ci_eq ascii_title sample_world (py "a.html") = py "Alpha" ∧
  (∃ content, read_text sample_world (py "c.html") = Some content ∧
              re_search (title_pattern ascii_ci_eq) content = None) ∧
  stem (py "c.html") = py "c" ∧
  extract_title ascii_ci_eq ascii_title sample_world (py "c.html") = py "C".
Proof.
  assert (Ha : read_text sample_world (py "a.html")
               = Some ([] ++ title_tag (py "title") (py "Alpha") (py "title") ++ []))
    by compute_done.
  assert (Hc : ∃ content, read_text sample_world (py "c.html") = Some content ∧
                          re_search (title_pattern ascii_ci_eq) content = None).
  { eexists. split; vm_compute; reflexivity. }
  destruct (extract_title_cases ascii_ci_eq ascii_title sample_world (py "a.html"))
    as (_ & Htag & _).
  destruct (extract_title_cases ascii_ci_eq ascii_title sample_world (py "c.html"))
    as (_ & _ & Hfallback).
  split; [exact Ha|]. split.
  - rewrite (Htag _ _ _ _ _ Ha);
      [compute_done|by repeat constructor|by repeat constructor
      |apply no_match_before_nil|done|compute_done].
  - split; [exact Hc|].
    destruct (Hfallback (py "c") eq_refl) as (Hstem & name & -> & -> & _);
      [done|compute_done|by right|].
    split; [exact Hstem|compute_done].
Defined.

Lemma commit_fields_clean_witness :
  Commit (py "1f3a9c2e") (py "2024-05-02T10:00:00+02:00")
         (py "Link to https://example.com/x, see #12")
    ∈ get_file_commit_details sample_world (py "b.html") ∧
  124 ∉ py "2024-05-02T10:00:00+02:00".
Proof.
  assert (H : Commit (py "1f3a9c2e") (py "2024-05-02T10:00:00+02:00")
                     (py "Link to https://example.com/x, see #12")
                ∈ get_file_commit_details sample_world (py "b.html"))
    by compute_done.
  split; [exact H|].
  exact (proj1 (proj2 (commit_fields_clean sample_world (py "b.html") _ H))).
Defined.

Lemma format_commit_message_lines_witness :
  (∀ c, c < 128 → ascii_decimal c = (48 <=? c) && (c <=? 57)) ∧
  format_commit_message ascii_decimal (py "see #12" ++ LF :: py "and <b>") =
  format_commit_message ascii_decimal (py "see #12") ++ py "<br>" ++
  LF :: format_commit_message ascii_decimal (py "and <b>").
Proof.
  split; [exact ascii_decimal_ascii|].
  exact (format_commit_message_lines ascii_decimal ascii_decimal_ascii _ _).
Defined.

Lemma format_commit_message_plain_witness :
  Forall (λ c, c ∉ py "&<>:#" ++ [DQUOTE; SQUOTE; LF]) (py "Fix typo in readme") ∧
  format_commit_message ascii_decimal (py "Fix typo in readme")
    = py "Fix typo in readme".
Proof.
  assert (H : Forall (λ c, c ∉ py "&<>:#" ++ [DQUOTE; SQUOTE; LF])
                     (py "Fix typo in readme")) by compute_done.
  split; [exact H|].
  exact (format_commit_message_plain ascii_decimal _ H).
Defined.

Lemma format_commit_message_single_link_witness :
  (∀ c, c < 128 → ascii_decimal c = (48 <=? c) && (c <=? 57)) ∧
  format_commit_message ascii_decimal (35 :: py "12")
    = expand issue_template (py "12") ∧
  format_commit_message ascii_decimal (py "https://" ++ py "example.com/x")
    = expand link_template (py "https://" ++ py "example.com/x").
Proof.
  split; [exact ascii_decimal_ascii|].
  destruct (format_commit_message_single_link ascii_decimal ascii_decimal_ascii)
    as [Hissue Hlink].
  split.
  - apply Hissue; [done|compute_done].
  - apply Hlink; [compute_done|done|compute_done].
Defined.

Lemma gather_without_history_witness :
  (∀ f, f ∈ html_files (World (fs sample_world) (λ _, []) []) →
        get_file_commit_details (World (fs sample_world) (λ _, []) []) f = []) ∧
  stdout (main ascii_ci_eq ascii_title code_dumps
            (World (fs sample_world) (λ _, []) []))
    = [py "Gathered data for 0 tool(s)"].
Proof.
  assert (H : ∀ f, f ∈ html_files (World (fs sample_world) (λ _, []) []) →
              get_file_commit_details (World (fs sample_world) (λ _, []) []) f = [])
    by (intros f _; reflexivity).
  split; [exact H|].
  exact (proj2 (proj2 (gather_without_history ascii_ci_eq ascii_title code_dumps
                         _ H))).
Defined.
